(** * stashr: the TTL key/value store of [store/store.go]

    A shallow embedding of package [store] and the properties of its
    operations.  Every Go function is written once, as a program over
    the primitive effects the package uses (the [sync.RWMutex], the map,
    [time.Now], the stop channel), and is then given two readings: a
    sequential one, that runs a call to completion, and an interleaving
    one, that runs two goroutines one primitive at a time. *)

From stdpp Require Import base gmap strings list.

Local Open Scope Z_scope.

(** ** [time.Time] and [time.Duration]

    An instant is a count of nanoseconds on one time line, the zero
    [time.Time] being instant 0; a duration is a signed count of
    nanoseconds.  [Time.Add] is addition ([int64] wrap-around of the
    duration and the range of [time.Time] are not modelled). *)

Abbreviation Time := Z (only parsing).
Abbreviation Duration := Z (only parsing).

Definition IsZero (t : Time) : bool := bool_decide (t = 0).

(** [t.After(u)]: [t] is strictly later than [u]. *)
Definition After (t u : Time) : bool := bool_decide (u < t).

Definition Add (t : Time) (d : Duration) : Time := t + d.

(** ** The data model (store.go, lines 8-22) *)

Record entry : Type := Entry {
  value : string;
  expiresAt : Time (* zero value means no expiry *)
}.

(** A [sync.RWMutex]: the number of goroutines holding it for reading
    and whether one holds it for writing. *)
Record RWMutex : Type := MkRWMutex {
  readers : nat;
  writer : bool
}.

(** The state of [chan struct{}] that matters to [close]. *)
Inductive chan_state : Type :=
| ChanOpen
| ChanClosed.

(** The [Store] struct, together with the position of the process on
    its clock ([ticks]: the number of [time.Now] calls made so far) and
    the number of [range] loops it has started ([ranges]). *)
Record World : Type := MkWorld {
  data : gmap string entry;
  mu : RWMutex;
  stopGC : chan_state;
  ticks : nat;
  ranges : nat
}.

Definition unlocked : RWMutex := MkRWMutex 0 false.

Definition with_data (m : gmap string entry) (w : World) : World :=
  MkWorld m (mu w) (stopGC w) (ticks w) (ranges w).

Definition with_mu (l : RWMutex) (w : World) : World :=
  MkWorld (data w) l (stopGC w) (ticks w) (ranges w).

Definition with_stopGC (c : chan_state) (w : World) : World :=
  MkWorld (data w) (mu w) c (ticks w) (ranges w).

Definition tick (w : World) : World :=
  MkWorld (data w) (mu w) (stopGC w) (S (ticks w)) (ranges w).

Definition next_range (w : World) : World :=
  MkWorld (data w) (mu w) (stopGC w) (ticks w) (S (ranges w)).

(** [New] (lines 26-33): an empty map, a free lock and an open stop
    channel.  [t0] and [r0] are the clock and loop positions at which the
    store is made.  The goroutine [gcLoop] that [New] starts calls
    [sweep] at each tick of its ticker until the stop channel is
    closed. *)
Definition New (t0 r0 : nat) : World := MkWorld ∅ unlocked ChanOpen t0 r0.

(** ** The lock

    [None] means that the caller has to wait.  A reader waits only for a
    writer that holds the lock (that Go also makes it wait for a writer
    that is waiting is not modelled: it only removes interleavings). *)

Definition rlock (l : RWMutex) : option RWMutex :=
  if writer l then None else Some (MkRWMutex (S (readers l)) false).

Definition lock (l : RWMutex) : option RWMutex :=
  if writer l then None
  else match readers l with
       | O => Some (MkRWMutex 0 true)
       | S _ => None
       end.

(** Unlocking a lock that is not held is a fatal error of the Go
    runtime. *)
Definition runlock (l : RWMutex) : option RWMutex :=
  match readers l with
  | O => None
  | S n => Some (MkRWMutex n (writer l))
  end.

Definition unlock (l : RWMutex) : option RWMutex :=
  if writer l then Some (MkRWMutex (readers l) false) else None.

(** ** Programs

    The primitive effects of the package, in continuation style. *)

Inductive Prog (A : Type) : Type :=
| Ret (a : A)
| MuRLock (k : Prog A)
| MuRUnlock (k : Prog A)
| MuLock (k : Prog A)
| MuUnlock (k : Prog A)
| TimeNow (k : Time → Prog A)
| MapLoad (key : string) (k : option entry → Prog A)
| MapStore (key : string) (e : entry) (k : Prog A)
| MapDelete (key : string) (k : Prog A)
| MapRange (k : list (string * entry) → Prog A)
| ChanClose (k : Prog A).

Arguments Ret {A} a.
Arguments MuRLock {A} k.
Arguments MuRUnlock {A} k.
Arguments MuLock {A} k.
Arguments MuUnlock {A} k.
Arguments TimeNow {A} k.
Arguments MapLoad {A} key k.
Arguments MapStore {A} key e k.
Arguments MapDelete {A} key k.
Arguments MapRange {A} k.
Arguments ChanClose {A} k.

Fixpoint prog_bind {A B : Type} (f : A → Prog B) (p : Prog A) : Prog B :=
  match p with
  | Ret a => f a
  | MuRLock k => MuRLock (prog_bind f k)
  | MuRUnlock k => MuRUnlock (prog_bind f k)
  | MuLock k => MuLock (prog_bind f k)
  | MuUnlock k => MuUnlock (prog_bind f k)
  | TimeNow k => TimeNow (λ t, prog_bind f (k t))
  | MapLoad key k => MapLoad key (λ o, prog_bind f (k o))
  | MapStore key e k => MapStore key e (prog_bind f k)
  | MapDelete key k => MapDelete key (prog_bind f k)
  | MapRange k => MapRange (λ l, prog_bind f (k l))
  | ChanClose k => ChanClose (prog_bind f k)
  end.

#[global] Instance Prog_ret : MRet Prog := @Ret.
#[global] Instance Prog_bind : MBind Prog := @prog_bind.

Definition mu_RLock : Prog unit := MuRLock (Ret tt).
Definition mu_RUnlock : Prog unit := MuRUnlock (Ret tt).
Definition mu_Lock : Prog unit := MuLock (Ret tt).
Definition mu_Unlock : Prog unit := MuUnlock (Ret tt).
Definition time_Now : Prog Time := TimeNow Ret.
Definition map_load (key : string) : Prog (option entry) := MapLoad key Ret.
Definition map_store (key : string) (e : entry) : Prog unit :=
  MapStore key e (Ret tt).
Definition map_delete (key : string) : Prog unit := MapDelete key (Ret tt).
Definition map_range : Prog (list (string * entry)) := MapRange Ret.
Definition chan_close : Prog unit := ChanClose (Ret tt).

(** ** The package [store] *)

(** The method [expired] of [entry] (lines 13-15).  [&&] evaluates its
    right operand, and so reads the clock, only when [expiresAt] is not
    zero. *)
Definition expired (e : entry) : Prog bool :=
  if negb (IsZero (expiresAt e))
  then now ← time_Now; mret (After now (expiresAt e))
  else mret false.

(** The condition of line 53, which [sweep] evaluates on a [now] of its
    own. *)
Definition expired_at (now : Time) (e : entry) : bool :=
  negb (IsZero (expiresAt e)) && After now (expiresAt e).

(** [sweep] (lines 48-57).  The loop ranges over the entries the map
    holds when it starts; the body deletes only the key it is visiting,
    so no entry still to come is affected by it. *)
Fixpoint sweep_loop (now : Time) (kes : list (string * entry)) : Prog unit :=
  match kes with
  | [] => mret tt
  | (k, e) :: rest =>
      (if expired_at now e then map_delete k else mret tt);;
      sweep_loop now rest
  end.

Definition sweep : Prog unit :=
  now ← time_Now;
  mu_Lock;;
  kes ← map_range;
  sweep_loop now kes;;
  mu_Unlock (* deferred *).

(** [Stop] (lines 60-62). *)
Definition Stop : Prog unit := chan_close.

(** [Get] (lines 66-84). *)
Definition Get (key : string) : Prog (string * bool) :=
  mu_RLock;;
  o ← map_load key;
  match o with
  | None => mu_RUnlock;; mret (EmptyString, false)
  | Some e =>
      b ← expired e;
      if (b : bool) then
        mu_RUnlock;;
        (* Upgrade to write lock to delete *)
        mu_Lock;;
        map_delete key;;
        mu_Unlock;;
        mret (EmptyString, false)
      else
        let val := value e in
        mu_RUnlock;;
        mret (val, true)
  end.

(** [Set] (lines 87-95); [Set] is a reserved word here. *)
Definition Set_ (key val : string) (ttl : Duration) : Prog unit :=
  e ← (if bool_decide (0 < ttl)
       then now ← time_Now; mret (Entry val (Add now ttl))
       else mret (Entry val 0));
  mu_Lock;;
  map_store key e;;
  mu_Unlock.

(** [Delete] (lines 98-108).  [||] calls [e.expired()] only when the key
    is in the map. *)
Definition Delete (key : string) : Prog bool :=
  mu_Lock;;
  o ← map_load key;
  b ← match o with
      | None => mret true
      | Some e => expired e
      end;
  if (b : bool) then
    map_delete key;; (* clean up if expired *)
    mu_Unlock;;
    mret false
  else
    map_delete key;;
    mu_Unlock;;
    mret true.

(** [List] (lines 111-121). *)
Fixpoint List_loop (kes : list (string * entry)) (keys : list string)
  : Prog (list string) :=
  match kes with
  | [] => mret keys
  | (k, e) :: rest =>
      b ← expired e;
      List_loop rest (if negb (b : bool) then keys ++ [k] else keys)
  end.

Definition List : Prog (list string) :=
  mu_RLock;;
  kes ← map_range;
  keys ← List_loop kes [];
  mu_RUnlock;; (* deferred *)
  mret keys.

(** ** Sequences of calls

    The calls a client makes on a store one after the other, with the
    sweeps of the background goroutine that fall between them. *)

Inductive op : Type :=
| OpGet (key : string)
| OpSet (key val : string) (ttl : Duration)
| OpDelete (key : string)
| OpList
| OpSweep
| OpStop.

Definition call (o : op) : Prog unit :=
  match o with
  | OpGet key => Get key;; mret tt
  | OpSet key val ttl => Set_ key val ttl
  | OpDelete key => Delete key;; mret tt
  | OpList => List;; mret tt
  | OpSweep => sweep
  | OpStop => Stop
  end.

Fixpoint calls (os : list op) : Prog unit :=
  match os with
  | [] => mret tt
  | o :: os' => call o;; calls os'
  end.

Definition is_stop (o : op) : bool :=
  match o with
  | OpStop => true
  | _ => false
  end.

(** The number of [Stop] calls in a sequence. *)
Fixpoint stops (os : list op) : nat :=
  match os with
  | [] => O
  | o :: os' => ((if is_stop o then 1 else 0) + stops os')%nat
  end.

(** The expiration test in the words of the specification: the
    expiration instant is set and the current instant has reached it. *)
Definition expired_spec (now : Time) (e : entry) : Prop :=
  expiresAt e ≠ 0 ∧ expiresAt e ≤ now.

(** ** The background goroutine (store.go, lines 35-46)

    [gcLoop] waits in a [select] for its ticker or for the stop channel.
    A receive from the stop channel, on which nothing is ever sent, is
    possible once the channel is closed; a tick starts a [sweep], whose
    primitives the goroutine then executes one at a time.  When ticks
    arrive is left open: any tick may or may not have arrived. *)

Inductive gc_state : Type :=
| GcSelect                      (* line 39: waiting in [select] *)
| GcSweep (rest : Prog unit)    (* line 41: inside [s.sweep()] *)
| GcReturned.                   (* line 43 *)

Inductive gc_event : Type :=
| TickerFires                   (* [case <-ticker.C] *)
| StopReceived                  (* [case <-s.stopGC] *)
| SweepStep.                    (* the next primitive of [sweep] *)

(** ** The front ends (server/http.go, server/grpc.go) *)

(** [int64] arithmetic wraps around. *)
Definition wrap64 (z : Z) : Z := (z + 2 ^ 63) `mod` 2 ^ 64 - 2 ^ 63.

(** [time.Second], in nanoseconds. *)
Definition time_Second : Duration := 1000000000.

(** The TTL both front ends pass to [Set] (http.go, lines 53-56;
    grpc.go, lines 26-29). *)
Definition ttl_of_seconds (secs : Z) : Duration :=
  if bool_decide (0 < secs) then wrap64 (secs * time_Second) else 0.

(** [setRequest] (http.go, lines 39-42), as [json.Decode] fills it. *)
Record setRequest : Type := SetRequest {
  Value : string;
  TTLSeconds : Z
}.

(** What a handler writes: the status, the [Content-Type] it sets and
    the value it hands to the encoder. *)
Inductive body : Type :=
| BodyText (msg : string)       (* [http.Error]: the message as text *)
| BodyValue (val : string)      (* the JSON object with field [value] *)
| BodyDeleted (deleted : bool)  (* the JSON object with field [deleted] *)
| BodyEmpty.

Record response : Type := Response {
  status : nat;
  contentType : option string;
  payload : body
}.

Definition StatusOK : nat := 200.
Definition StatusNoContent : nat := 204.
Definition StatusBadRequest : nat := 400.
Definition StatusNotFound : nat := 404.

Definition dquote : string := String (Ascii.ascii_of_nat 34) EmptyString.

(** The JSON object with the one field [error]. *)
Definition error_json (msg : string) : string :=
  "{" +:+ dquote +:+ "error" +:+ dquote +:+ ":" +:+
  dquote +:+ msg +:+ dquote +:+ "}".

(** [http.Error(w, msg, code)]. *)
Definition http_Error (msg : string) (code : nat) : response :=
  Response code (Some "text/plain; charset=utf-8"%string) (BodyText msg).

(** [handleGet] (http.go, lines 28-37); [key] is [r.PathValue("key")]. *)
Definition handleGet (key : string) : Prog response :=
  r ← Get key;
  let '(val, ok) := (r : string * bool) in
  if negb ok then mret (http_Error (error_json "not found") StatusNotFound)
  else mret (Response StatusOK (Some "application/json"%string)
               (BodyValue val)).

(** [handleSet] (http.go, lines 44-60); [decoded] is the outcome of
    decoding the request body, [None] when [Decode] returns an error. *)
Definition handleSet (key : string) (decoded : option setRequest)
  : Prog response :=
  match decoded with
  | None => mret (http_Error (error_json "invalid JSON") StatusBadRequest)
  | Some req =>
      let ttl := ttl_of_seconds (TTLSeconds req) in
      Set_ key (Value req) ttl;;
      mret (Response StatusNoContent None BodyEmpty)
  end.

(** [handleDelete] (http.go, lines 62-67). *)
Definition handleDelete (key : string) : Prog response :=
  deleted ← Delete key;
  mret (Response StatusOK (Some "application/json"%string)
          (BodyDeleted deleted)).

(** Modelled from the spec: the response messages of package [pb], which
    is generated code; the fields are those grpc.go writes.  The request
    fields it reads ([Key], [Value], [TtlSeconds], the last taken to be
    an [int64]) are the arguments of the methods below. *)
Module pb.

Record GetResponse : Type := MkGetResponse {
  Value : string;
  Found : bool
}.

Record DeleteResponse : Type := MkDeleteResponse {
  Deleted : bool
}.

End pb.

(** The methods [Get], [Set] and [Delete] of [GRPCServer] (grpc.go, lines
    20-37); the error each returns beside its response is always
    [nil]. *)
Definition GRPC_Get (key : string) : Prog pb.GetResponse :=
  r ← Get key;
  let '(val, ok) := (r : string * bool) in
  mret (pb.MkGetResponse val ok).

Definition GRPC_Set (key val : string) (ttl_seconds : Z) : Prog unit :=
  let ttl := ttl_of_seconds ttl_seconds in
  Set_ key val ttl.

Definition GRPC_Delete (key : string) : Prog pb.DeleteResponse :=
  deleted ← Delete key;
  mret (pb.MkDeleteResponse deleted).

(** A program that neither stores into the map nor closes the stop
    channel. *)
Inductive only_deletes {A : Type} : Prog A → Prop :=
| od_Ret (a : A) : only_deletes (Ret a)
| od_RLock (k : Prog A) : only_deletes k → only_deletes (MuRLock k)
| od_RUnlock (k : Prog A) : only_deletes k → only_deletes (MuRUnlock k)
| od_Lock (k : Prog A) : only_deletes k → only_deletes (MuLock k)
| od_Unlock (k : Prog A) : only_deletes k → only_deletes (MuUnlock k)
| od_Now (k : Time → Prog A) :
    (∀ t, only_deletes (k t)) → only_deletes (TimeNow k)
| od_Load (key : string) (k : option entry → Prog A) :
    (∀ o, only_deletes (k o)) → only_deletes (MapLoad key k)
| od_Delete (key : string) (k : Prog A) :
    only_deletes k → only_deletes (MapDelete key k)
| od_Range (k : list (string * entry) → Prog A) :
    (∀ l, only_deletes (k l)) → only_deletes (MapRange k).

(** What the goroutine has left of a [sweep] only deletes. *)
Definition gc_inv (g : gc_state) : Prop :=
  match g with
  | GcSweep p => only_deletes p
  | _ => True
  end.

(** ** Running programs *)

Inductive Res (A : Type) : Type :=
| Ok (a : A) (w : World)
| Panic (msg : string)
| Blocked.

Arguments Ok {A} a w.
Arguments Panic {A} msg.
Arguments Blocked {A}.

(** The same outcome in a changed state. *)
Definition on_world {A : Type} (f : World → World) (r : Res A) : Res A :=
  match r with
  | Ok a w => Ok a (f w)
  | Panic msg => Panic msg
  | Blocked => Blocked
  end.

(** Two goroutines on one store. *)
Inductive tid : Type :=
| First
| Second.

Record Conf (A B : Type) : Type := MkConf {
  first : Prog A;
  second : Prog B;
  shared : World
}.

Arguments MkConf {A B} first second shared.
Arguments first {A B} c.
Arguments second {A B} c.
Arguments shared {A B} c.

Definition returned {A : Type} (p : Prog A) : bool :=
  match p with
  | Ret _ => true
  | _ => false
  end.

Section Semantics.

(** The clock: [clock n] is what the [n]-th call of [time.Now] returns. *)
Variable clock : nat → Time.

(** The order in which the [n]-th [range] loop visits a map. Go leaves it
    unspecified; it is some enumeration of the map. *)
Variable range_order : nat → gmap string entry → list (string * entry).

(** One primitive, executed by one goroutine: the rest of its program and
    the new state, [Blocked] when it has to wait for the lock, [Panic]
    when the runtime stops the process. *)
Definition exec1 {A : Type} (p : Prog A) (w : World) : Res (Prog A) :=
  match p with
  | Ret a => Ok (Ret a) w
  | MuRLock k =>
      match rlock (mu w) with
      | Some l => Ok k (with_mu l w)
      | None => Blocked
      end
  | MuRUnlock k =>
      match runlock (mu w) with
      | Some l => Ok k (with_mu l w)
      | None => Panic "sync: RUnlock of unlocked RWMutex"
      end
  | MuLock k =>
      match lock (mu w) with
      | Some l => Ok k (with_mu l w)
      | None => Blocked
      end
  | MuUnlock k =>
      match unlock (mu w) with
      | Some l => Ok k (with_mu l w)
      | None => Panic "sync: Unlock of unlocked RWMutex"
      end
  | TimeNow k => Ok (k (clock (ticks w))) (tick w)
  | MapLoad key k => Ok (k (data w !! key)) w
  | MapStore key e k => Ok k (with_data (<[key := e]> (data w)) w)
  | MapDelete key k => Ok k (with_data (delete key (data w)) w)
  | MapRange k => Ok (k (range_order (ranges w) (data w))) (next_range w)
  | ChanClose k =>
      match stopGC w with
      | ChanOpen => Ok k (with_stopGC ChanClosed w)
      | ChanClosed => Panic "close of closed channel"
      end
  end.

(** A call run to its end with no other goroutine in between. *)
Fixpoint run {A : Type} (p : Prog A) (w : World) : Res A :=
  match p with
  | Ret a => Ok a w
  | MuRLock k =>
      match rlock (mu w) with
      | Some l => run k (with_mu l w)
      | None => Blocked
      end
  | MuRUnlock k =>
      match runlock (mu w) with
      | Some l => run k (with_mu l w)
      | None => Panic "sync: RUnlock of unlocked RWMutex"
      end
  | MuLock k =>
      match lock (mu w) with
      | Some l => run k (with_mu l w)
      | None => Blocked
      end
  | MuUnlock k =>
      match unlock (mu w) with
      | Some l => run k (with_mu l w)
      | None => Panic "sync: Unlock of unlocked RWMutex"
      end
  | TimeNow k => run (k (clock (ticks w))) (tick w)
  | MapLoad key k => run (k (data w !! key)) w
  | MapStore key e k => run k (with_data (<[key := e]> (data w)) w)
  | MapDelete key k => run k (with_data (delete key (data w)) w)
  | MapRange k => run (k (range_order (ranges w) (data w))) (next_range w)
  | ChanClose k =>
      match stopGC w with
      | ChanOpen => run k (with_stopGC ChanClosed w)
      | ChanClosed => Panic "close of closed channel"
      end
  end.

(** One goroutine takes one step of a configuration. *)
Definition step {A B : Type} (t : tid) (c : Conf A B) : option (Conf A B) :=
  match t with
  | First =>
      if returned (first c) then None
      else match exec1 (first c) (shared c) with
           | Ok p w => Some (MkConf p (second c) w)
           | _ => None
           end
  | Second =>
      if returned (second c) then None
      else match exec1 (second c) (shared c) with
           | Ok q w => Some (MkConf (first c) q w)
           | _ => None
           end
  end.

(** The reading of the clock a call made in [w] gets first. *)
Definition now_of (w : World) : Time := clock (ticks w).

(** A schedule names, step by step, the goroutine that executes its next
    primitive; it is not a schedule of the configuration ([None]) when it
    picks a goroutine that has returned or that has to wait, or when a
    primitive panics. *)
Fixpoint sched {A B : Type} (ts : list tid) (c : Conf A B)
  : option (Conf A B) :=
  match ts with
  | [] => Some c
  | t :: ts' =>
      match step t c with
      | Some c' => sched ts' c'
      | None => None
      end
  end.

(** The map a [sweep] loop leaves, and the keys and clock readings of a
    [List] loop. *)
Definition sweep_data (now : Time) (kes : list (string * entry))
  (m : gmap string entry) : gmap string entry :=
  foldl (λ m' ke, if expired_at now ke.2 then delete ke.1 m' else m') m kes.

Fixpoint List_sel (t : nat) (kes : list (string * entry)) : list string :=
  match kes with
  | [] => []
  | (k, e) :: rest =>
      (if expired_at (clock t) e then [] else [k]) ++
      List_sel (if IsZero (expiresAt e) then t else S t) rest
  end.

Fixpoint List_ticks (kes : list (string * entry)) : nat :=
  match kes with
  | [] => O
  | (k, e) :: rest =>
      if IsZero (expiresAt e) then List_ticks rest else S (List_ticks rest)
  end.

Definition advance (n : nat) (w : World) : World :=
  MkWorld (data w) (mu w) (stopGC w) (n + ticks w)%nat (ranges w).

(** The number of entries of a map that have an expiration instant. *)
Definition deadlines (m : gmap string entry) : nat :=
  List_ticks (map_to_list m).

(** One event of the background goroutine.  [None]: the event cannot
    happen in this state. *)
Definition gc_step (ev : gc_event) (g : gc_state) (w : World)
  : option (gc_state * World) :=
  match g, ev with
  | GcSelect, TickerFires => Some (GcSweep sweep, w)
  | GcSelect, StopReceived =>
      match stopGC w with
      | ChanClosed => Some (GcReturned, w)
      | ChanOpen => None
      end
  | GcSweep p, SweepStep =>
      match exec1 p w with
      | Ok p' w' => Some (if returned p' then GcSelect else GcSweep p', w')
      | _ => None
      end
  | _, _ => None
  end.

Fixpoint gc_run (evs : list gc_event) (g : gc_state) (w : World)
  : option (gc_state * World) :=
  match evs with
  | [] => Some (g, w)
  | ev :: evs' =>
      match gc_step ev g w with
      | Some (g', w') => gc_run evs' g' w'
      | None => None
      end
  end.

End Semantics.

(** ** Scenarios

    A clock that starts at [t0] and advances by one nanosecond at each
    reading, the iteration order of stdpp's maps, and the stores of the
    package's tests. *)

Definition clock_from (t0 : Time) : nat → Time := λ n, t0 + Z.of_nat n.

Definition map_order : nat → gmap string entry → list (string * entry) :=
  λ _ m, map_to_list m.

(** [Set("temp", "value", 50)] at instant 100, seen from instant 100. *)
Definition store_temp : World :=
  MkWorld {["temp" := Entry "value" 150]} unlocked ChanOpen 0 0.

(** The same key, written long ago with an expiration instant of 50. *)
Definition store_stale : World :=
  MkWorld {["temp" := Entry "old" 50]} unlocked ChanOpen 0 0.

(** An entry whose expiration instant is the instant of the call. *)
Definition store_due : World :=
  MkWorld {["temp" := Entry "value" 100]} unlocked ChanOpen 0 0.

(** Two keys that expire at the same instant 100. *)
Definition store_pair : World :=
  MkWorld (<["a" := Entry "v" 100]> {["b" := Entry "v" 100]})
    unlocked ChanOpen 0 0.

(** A clock that stands still, and a store that two goroutines hold for
    reading. *)
Definition clock_fixed (t0 : Time) : nat → Time := λ _, t0.


(** The store of [TestList]. *)
Definition store_abc : World :=
  MkWorld (<["a" := Entry "1" 0]> (<["b" := Entry "2" 0]>
             {["c" := Entry "3" 0]})) unlocked ChanOpen 0 0.

(** * Properties *)

Section Properties.

Variable clock : nat → Time.
Variable range_order : nat → gmap string entry → list (string * entry).

(** Every [range] loop visits each entry of the map once. *)
Hypothesis range_order_perm :
  ∀ n (m : gmap string entry), range_order n m ≡ₚ map_to_list m.

Local Abbreviation run := (run clock range_order).
Local Abbreviation exec1 := (exec1 clock range_order).
Local Abbreviation sched := (sched clock range_order).
Local Abbreviation now_of := (now_of clock).
Local Abbreviation List_sel := (List_sel clock).
Local Abbreviation gc_step := (gc_step clock range_order).
Local Abbreviation gc_run := (gc_run clock range_order).

(** ** The interpreters *)

Lemma run_bind {A B : Type} (p : Prog A) (f : A → Prog B) (w : World) :
  run (p ≫= f) w =
  match run p w with
  | Ok a w' => run (f a) w'
  | Panic msg => Panic msg
  | Blocked => Blocked
  end.
Proof.
  revert w. unfold mbind, Prog_bind.
  induction p as [a|k IH|k IH|k IH|k IH|k IH|key k IH|key e k IH|key k IH|k IH|k IH];
    intros w; simpl; try done.
  - destruct (rlock (mu w)); [apply IH | done].
  - destruct (runlock (mu w)); [apply IH | done].
  - destruct (lock (mu w)); [apply IH | done].
  - destruct (unlock (mu w)); [apply IH | done].
  - destruct (stopGC w); [apply IH | done].
Qed.

(** Running a call is executing its primitives one after the other. *)
Lemma exec1_run {A : Type} (p p' : Prog A) (w w' : World) :
  exec1 p w = Ok p' w' → run p w = run p' w'.
Proof.
  destruct p; simpl; intros H; try (by inversion H).
  - destruct (rlock (mu w)); by inversion H.
  - destruct (runlock (mu w)); by inversion H.
  - destruct (lock (mu w)); by inversion H.
  - destruct (unlock (mu w)); by inversion H.
  - destruct (stopGC w); by inversion H.
Qed.

Lemma step_First_run {A B : Type} (c c' : Conf A B) :
  step clock range_order First c = Some c' →
  run (first c) (shared c) = run (first c') (shared c') ∧
  second c' = second c.
Proof.
  unfold step. destruct (returned (first c)); [discriminate|].
  destruct (exec1 (first c) (shared c)) as [p w'| |] eqn:Hex;
    [|discriminate..].
  intros [= <-]. simpl. split; [by apply exec1_run|done].
Qed.

(** A goroutine scheduled alone does what [run] does. *)
Lemma sched_First_run {A B : Type} (n : nat) (c c' : Conf A B) :
  sched (replicate n First) c = Some c' →
  run (first c) (shared c) = run (first c') (shared c').
Proof.
  revert c. induction n as [|n IH]; intros c; cbn [replicate sched].
  - by intros [= <-].
  - destruct (step clock range_order First c) as [c1|] eqn:Hstep; [|done].
    intros Hs. apply step_First_run in Hstep as [-> _]. by apply IH.
Qed.

Lemma run_expired (e : entry) (w : World) :
  run (expired e) w =
  Ok (expired_at (now_of w) e) (if IsZero (expiresAt e) then w else tick w).
Proof.
  unfold expired, expired_at, now_of.
  destruct (IsZero (expiresAt e)); simpl; done.
Qed.

(** ** What each call computes, run from a store whose lock is free *)

Lemma run_Get (key : string) (w : World) :
  mu w = unlocked →
  run (Get key) w =
  match data w !! key with
  | None => Ok (EmptyString, false) w
  | Some e =>
      if expired_at (now_of w) e
      then Ok (EmptyString, false) (with_data (delete key (data w)) (tick w))
      else Ok (value e, true) (if IsZero (expiresAt e) then w else tick w)
  end.
Proof.
  destruct w as [m l c t r]; simpl; intros ->.
  unfold Get, now_of, expired, expired_at; simpl.
  destruct (m !! key) as [e|] eqn:Hm; simpl; [|done].
  destruct (IsZero (expiresAt e)); simpl; [done|].
  destruct (After (clock t) (expiresAt e)); done.
Qed.

Lemma run_Set (key val : string) (ttl : Duration) (w : World) :
  mu w = unlocked →
  run (Set_ key val ttl) w =
  if bool_decide (0 < ttl)
  then Ok tt (with_data (<[key := Entry val (Add (now_of w) ttl)]> (data w))
                (tick w))
  else Ok tt (with_data (<[key := Entry val 0]> (data w)) w).
Proof.
  destruct w as [m l c t r]; simpl; intros ->.
  unfold Set_, now_of. destruct (bool_decide (0 < ttl)); done.
Qed.

Lemma run_Delete (key : string) (w : World) :
  mu w = unlocked →
  run (Delete key) w =
  match data w !! key with
  | None => Ok false (with_data (delete key (data w)) w)
  | Some e =>
      Ok (negb (expired_at (now_of w) e))
         (with_data (delete key (data w))
            (if IsZero (expiresAt e) then w else tick w))
  end.
Proof.
  destruct w as [m l c t r]; simpl; intros ->.
  unfold Delete, now_of, expired, expired_at; simpl.
  destruct (m !! key) as [e|] eqn:Hm; simpl; [|done].
  destruct (IsZero (expiresAt e)); simpl; [done|].
  destruct (After (clock t) (expiresAt e)); done.
Qed.

Lemma run_Stop (w : World) :
  run Stop w =
  match stopGC w with
  | ChanOpen => Ok tt (with_stopGC ChanClosed w)
  | ChanClosed => Panic "close of closed channel"
  end.
Proof. unfold Stop. simpl. by destruct (stopGC w). Qed.

Lemma run_sweep_loop (now : Time) (kes : list (string * entry)) (w : World) :
  run (sweep_loop now kes) w = Ok tt (with_data (sweep_data now kes (data w)) w).
Proof.
  revert w. induction kes as [|[k e] rest IH]; intros w.
  - by destruct w.
  - cbn [sweep_loop]. rewrite run_bind.
    unfold sweep_data; cbn [foldl fst snd].
    destruct (expired_at now e); simpl; rewrite IH; done.
Qed.

Lemma run_sweep (w : World) :
  mu w = unlocked →
  run sweep w =
  Ok tt (with_data
           (sweep_data (now_of w) (range_order (ranges w) (data w)) (data w))
           (next_range (tick w))).
Proof.
  destruct w as [m l c t r]; simpl; intros ->.
  unfold sweep, now_of. simpl. rewrite run_bind, run_sweep_loop. done.
Qed.

Lemma run_List_loop (kes : list (string * entry)) (keys : list string)
  (w : World) :
  run (List_loop kes keys) w =
  Ok (keys ++ List_sel (ticks w) kes) (advance (List_ticks kes) w).
Proof.
  revert keys w. induction kes as [|[k e] rest IH]; intros keys w.
  - simpl. rewrite app_nil_r. by destruct w.
  - cbn [List_loop]. rewrite run_bind, run_expired, IH.
    unfold expired_at, now_of. cbn [List_sel List_ticks].
    destruct w as [m l c t r]. unfold expired_at, advance; simpl.
    destruct (IsZero (expiresAt e)); simpl.
    { by rewrite <- app_assoc. }
    destruct (After (clock t) (expiresAt e)); simpl.
    + do 2 f_equal. lia.
    + rewrite <- app_assoc. do 2 f_equal. lia.
Qed.

Lemma run_List (w : World) :
  mu w = unlocked →
  run List w =
  let kes := range_order (ranges w) (data w) in
  Ok (List_sel (ticks w) kes) (advance (List_ticks kes) (next_range w)).
Proof.
  destruct w as [m l c t r]; simpl; intros ->.
  unfold List. simpl. rewrite run_bind, run_List_loop. done.
Qed.

(** ** The expiration test and the two loops *)

Lemma expired_at_iff (now : Time) (e : entry) :
  expired_at now e = true ↔ expiresAt e ≠ 0 ∧ expiresAt e < now.
Proof.
  unfold expired_at, IsZero, After.
  rewrite andb_true_iff, negb_true_iff, bool_decide_eq_false,
    bool_decide_eq_true. done.
Qed.

Lemma expired_at_false_iff (now : Time) (e : entry) :
  expired_at now e = false ↔ expiresAt e = 0 ∨ now ≤ expiresAt e.
Proof.
  rewrite <- not_true_iff_false, expired_at_iff. lia.
Qed.

Lemma sweep_data_absent (now : Time) (kes : list (string * entry))
  (m : gmap string entry) (k : string) :
  m !! k = None → sweep_data now kes m !! k = None.
Proof.
  revert m. induction kes as [|[k' e'] rest IH]; intros m Hm; [done|].
  unfold sweep_data; cbn [foldl fst snd]. apply IH.
  destruct (expired_at now e'); [|done].
  rewrite lookup_delete_None. by right.
Qed.

Lemma sweep_data_hit (now : Time) (kes : list (string * entry))
  (m : gmap string entry) (k : string) (e : entry) :
  (k, e) ∈ kes → expired_at now e = true → sweep_data now kes m !! k = None.
Proof.
  revert m. induction kes as [|[k' e'] rest IH]; intros m Hin Hexp.
  - by apply elem_of_nil in Hin.
  - unfold sweep_data; cbn [foldl fst snd].
    apply elem_of_cons in Hin as [Heq|Hin].
    + inversion Heq; subst k' e'. rewrite Hexp.
      apply sweep_data_absent, lookup_delete_eq.
    + by apply IH.
Qed.

Lemma sweep_data_miss (now : Time) (kes : list (string * entry))
  (m : gmap string entry) (k : string) :
  (∀ e, (k, e) ∈ kes → expired_at now e = false) →
  sweep_data now kes m !! k = m !! k.
Proof.
  revert m. induction kes as [|[k' e'] rest IH]; intros m Hall; [done|].
  unfold sweep_data; cbn [foldl fst snd].
  fold (sweep_data now rest (if expired_at now e' then delete k' m else m)).
  rewrite IH by (intros e He; apply Hall; by right).
  destruct (expired_at now e') eqn:Hexp; [|done].
  apply lookup_delete_ne. intros ->.
  assert (expired_at now e' = false) by (apply Hall; by left). congruence.
Qed.

Lemma sweep_data_lookup (now : Time) (kes : list (string * entry))
  (m : gmap string entry) (k : string) :
  kes ≡ₚ map_to_list m →
  sweep_data now kes m !! k =
  match m !! k with
  | Some e => if expired_at now e then None else Some e
  | None => None
  end.
Proof.
  intros Hperm.
  destruct (m !! k) as [e|] eqn:Hm; [|by apply sweep_data_absent].
  destruct (expired_at now e) eqn:Hexp.
  - apply sweep_data_hit with e; [|done].
    rewrite Hperm. by apply elem_of_map_to_list.
  - rewrite sweep_data_miss; [done|].
    intros e'. rewrite Hperm, elem_of_map_to_list. congruence.
Qed.

Lemma List_sel_sound (kes : list (string * entry)) (t : nat) (k : string) :
  k ∈ List_sel t kes →
  ∃ e i, (k, e) ∈ kes ∧ (i < length kes)%nat ∧
         expired_at (clock (t + i)%nat) e = false.
Proof.
  revert t. induction kes as [|[k' e'] rest IH]; intros t Hin.
  - by apply elem_of_nil in Hin.
  - cbn [List_sel] in Hin. apply elem_of_app in Hin as [Hin|Hin].
    + destruct (expired_at (clock t) e') eqn:Hexp;
        [by apply elem_of_nil in Hin|].
      apply list_elem_of_singleton in Hin as ->.
      exists e', O. rewrite Nat.add_0_r. simpl.
      split; [by left|]. split; [lia|done].
    + apply IH in Hin as (e & i & Hin & Hi & Hexp).
      destruct (IsZero (expiresAt e')).
      * exists e, i. simpl. split; [by right|]. split; [lia|done].
      * exists e, (S i). simpl. split; [by right|]. split; [lia|].
        by rewrite Nat.add_succ_r.
Qed.

Lemma List_sel_complete (kes : list (string * entry)) (t : nat)
  (k : string) (e : entry) :
  (k, e) ∈ kes →
  (∀ i, (i < length kes)%nat → expired_at (clock (t + i)%nat) e = false) →
  k ∈ List_sel t kes.
Proof.
  revert t. induction kes as [|[k' e'] rest IH]; intros t Hin Hall.
  - by apply elem_of_nil in Hin.
  - cbn [List_sel]. apply elem_of_app.
    apply elem_of_cons in Hin as [Heq|Hin].
    + inversion Heq; subst k' e'. left.
      specialize (Hall O). rewrite Nat.add_0_r in Hall.
      rewrite Hall by (simpl; lia). by left.
    + right. apply IH; [done|]. intros i Hi.
      destruct (IsZero (expiresAt e')).
      * apply Hall. simpl. lia.
      * replace (S t + i)%nat with (t + S i)%nat by lia.
        apply Hall. simpl. lia.
Qed.

Lemma List_sel_sublist (kes : list (string * entry)) (t : nat) :
  List_sel t kes `sublist_of` kes.*1.
Proof.
  revert t. induction kes as [|[k' e'] rest IH]; intros t; [done|].
  cbn [List_sel]. rewrite fmap_cons. simpl.
  destruct (expired_at (clock t) e'); simpl.
  - by apply sublist_cons.
  - by apply sublist_skip.
Qed.

Lemma IsZero_true_iff (t : Time) : IsZero t = true ↔ t = 0.
Proof. unfold IsZero. apply bool_decide_eq_true. Qed.

Lemma List_ticks_perm (kes kes' : list (string * entry)) :
  kes ≡ₚ kes' → List_ticks kes = List_ticks kes'.
Proof.
  induction 1 as [|[k e] l l' _ IH|[k1 e1] [k2 e2] l|l1 l2 l3 _ IH1 _ IH2];
    cbn [List_ticks].
  - done.
  - by rewrite IH.
  - by destruct (IsZero (expiresAt e1)), (IsZero (expiresAt e2)).
  - by rewrite IH1.
Qed.

(** An entry that has an expiration instant is tested at a reading the
    loop takes: the readings before its own are fewer than all of
    them. *)
Lemma List_ticks_take_lt (kes : list (string * entry)) (j : nat)
  (k : string) (e : entry) :
  kes !! j = Some (k, e) →
  expiresAt e ≠ 0 →
  (List_ticks (take j kes) < List_ticks kes)%nat.
Proof.
  revert j. induction kes as [|[k0 e0] rest IH]; intros j Hj Hnz; [done|].
  destruct j as [|j]; cbn [take List_ticks].
  - injection Hj as -> ->.
    destruct (IsZero (expiresAt e)) eqn:Hz;
      [by apply IsZero_true_iff in Hz | lia].
  - specialize (IH j Hj Hnz). destruct (IsZero (expiresAt e0)); lia.
Qed.

(** The entry a [List] loop visits in place [j] is tested at the reading
    that follows the readings taken for the entries before it. *)
Lemma List_sel_at (kes : list (string * entry)) (t j : nat) (k : string)
  (e : entry) :
  NoDup kes.*1 →
  kes !! j = Some (k, e) →
  k ∈ List_sel t kes ↔
  expired_at (clock (t + List_ticks (take j kes))%nat) e = false.
Proof.
  revert t j. induction kes as [|[k0 e0] rest IH]; intros t j Hnd Hj; [done|].
  rewrite fmap_cons in Hnd. apply NoDup_cons in Hnd as [Hnotin Hnd].
  cbn [fst] in Hnotin. cbn [List_sel]. rewrite elem_of_app.
  destruct j as [|j]; cbn [take List_ticks].
  - injection Hj as -> ->. rewrite Nat.add_0_r. split.
    + intros [Hin|Hin].
      * destruct (expired_at (clock t) e); [by apply elem_of_nil in Hin|done].
      * exfalso. apply Hnotin.
        eapply elem_of_sublist; [exact Hin | apply List_sel_sublist].
    + intros ->. left. by apply list_elem_of_singleton.
  - assert (Hne : k ≠ k0).
    { intros ->. apply Hnotin.
      apply (list_elem_of_fmap_2 fst rest (k0, e)).
      by eapply list_elem_of_lookup_2. }
    cbn [lookup] in Hj.
    replace (t + (if IsZero (expiresAt e0)
                  then List_ticks (take j rest)
                  else S (List_ticks (take j rest))))%nat
      with ((if IsZero (expiresAt e0) then t else S t)
            + List_ticks (take j rest))%nat
      by (destruct (IsZero (expiresAt e0)); lia).
    rewrite <- (IH (if IsZero (expiresAt e0) then t else S t) j Hnd Hj).
    split; [|by right]. intros [Hin|Hin]; [|done].
    destruct (expired_at (clock t) e0); [by apply elem_of_nil in Hin|].
    by apply list_elem_of_singleton in Hin.
Qed.

(** What [List] returns and where it leaves the clock, entry by entry in
    the order of its loop. *)
Lemma List_keys_at (w : World) :
  mu w = unlocked →
  ∃ keys w',
    run List w = Ok keys w' ∧
    data w' = data w ∧ mu w' = unlocked ∧ stopGC w' = stopGC w ∧
    NoDup keys ∧
    ticks w' = (ticks w + deadlines (data w))%nat ∧
    (∀ j k e,
       range_order (ranges w) (data w) !! j = Some (k, e) →
       data w !! k = Some e ∧
       (expiresAt e = 0 ∨
        (List_ticks (take j (range_order (ranges w) (data w)))
         < deadlines (data w))%nat) ∧
       (k ∈ keys ↔
        expired_at
          (clock (ticks w
                  + List_ticks (take j (range_order (ranges w) (data w))))%nat)
          e = false)) ∧
    (∀ k e, data w !! k = Some e →
            ∃ j, range_order (ranges w) (data w) !! j = Some (k, e)) ∧
    (∀ k, k ∈ keys →
          ∃ j e, range_order (ranges w) (data w) !! j = Some (k, e)).
Proof.
  intros Hmu. rewrite run_List by done. cbv zeta.
  pose proof (range_order_perm (ranges w) (data w)) as Hperm.
  set (kes := range_order (ranges w) (data w)) in *.
  assert (Hnd : NoDup kes.*1)
    by (rewrite Hperm; apply NoDup_fst_map_to_list).
  assert (Hticks : List_ticks kes = deadlines (data w))
    by apply List_ticks_perm, Hperm.
  eexists _, _. split; [done|]. split; [done|].
  split; [by rewrite <- Hmu|]. split; [done|].
  split; [|split; [|split; [|split]]].
  - eapply sublist_NoDup; [exact Hnd | apply List_sel_sublist].
  - cbn [ticks advance next_range]. lia.
  - intros j k e Hj. split; [|split].
    + apply elem_of_map_to_list. rewrite <- Hperm.
      by eapply list_elem_of_lookup_2.
    + destruct (decide (expiresAt e = 0)); [by left|]. right.
      rewrite <- Hticks. by eapply List_ticks_take_lt.
    + by apply List_sel_at.
  - intros k e Hk. apply list_elem_of_lookup_1.
    rewrite Hperm. by apply elem_of_map_to_list.
  - intros k Hin.
    assert (Hin' : k ∈ kes.*1)
      by (eapply elem_of_sublist; [exact Hin | apply List_sel_sublist]).
    apply list_elem_of_fmap in Hin' as ([k' e] & -> & Hin').
    apply list_elem_of_lookup_1 in Hin' as [j Hj]. by exists j, e.
Qed.

Lemma run_Get_advance_never (key val : string) (n : nat) (w : World) :
  mu w = unlocked →
  data w !! key = Some (Entry val 0) →
  run (Get key) (advance n w) = Ok (val, true) (advance n w).
Proof.
  intros Hmu Hk. rewrite run_Get by done. simpl. rewrite Hk. done.
Qed.

Lemma run_Get_advance_absent (key : string) (n : nat) (w : World) :
  mu w = unlocked →
  data w !! key = None →
  run (Get key) (advance n w) = Ok (EmptyString, false) (advance n w).
Proof.
  intros Hmu Hk. rewrite run_Get by done. simpl. rewrite Hk. done.
Qed.

(** ** The operations of the store *)

(** C4. [Get key] returns [(value, true)] exactly when the key is in the
    map with an entry that is not expired at the reading of the clock
    the call takes; on a key that is not in the map it returns
    [("", false)] and leaves the map as it is; on a key whose expiration
    instant lies in the past it returns [("", false)] and deletes the
    key, which is not in the map afterwards. *)
Theorem Get_present_unexpired (key : string) (w : World) :
  mu w = unlocked →
  ∃ v found w',
    run (Get key) w = Ok (v, found) w' ∧
    mu w' = unlocked ∧
    (found = true ↔
       ∃ e, data w !! key = Some e ∧ expired_at (now_of w) e = false) ∧
    (∀ e, data w !! key = Some e → expired_at (now_of w) e = false →
          v = value e ∧ found = true ∧ data w' = data w) ∧
    (data w !! key = None →
       v = EmptyString ∧ found = false ∧ data w' = data w) ∧
    (∀ e, data w !! key = Some e →
          expiresAt e ≠ 0 → expiresAt e < now_of w →
          v = EmptyString ∧ found = false ∧
          data w' = delete key (data w) ∧ data w' !! key = None).
Proof.
  intros Hmu. rewrite run_Get by done.
  destruct (data w !! key) as [e|] eqn:Hk.
  - destruct (expired_at (now_of w) e) eqn:Hexp.
    + eexists _, _, _. split; [done|]. split; [by destruct w|].
      split; [|split; [|split]].
      * split; [done|]. intros (e' & [= <-] & ?). congruence.
      * intros e' [= <-] ?. congruence.
      * done.
      * intros e' [= <-] _ _. simpl. by rewrite lookup_delete_eq.
    + eexists _, _, _. split; [done|].
      split; [by destruct w, (IsZero (expiresAt e))|].
      split; [|split; [|split]].
      * split; [eauto|done].
      * intros e' [= <-] _. by destruct w, (IsZero (expiresAt e)).
      * done.
      * intros e' [= <-] Hnz Hlt.
        assert (expired_at (now_of w) e = true) by by apply expired_at_iff.
        congruence.
  - eexists _, _, _. split; [done|]. split; [done|].
    split; [|split; [|split]]; try done.
    split; [done|]. by intros (e & ? & ?).
Qed.

(** C5. [Set key val ttl] puts a new entry at [key], whatever the map
    held there; with [ttl = 0] the entry never expires, with [ttl > 0]
    it expires at the instant of the call plus [ttl]; after a second
    [Set] on the key the map is what the second [Set] alone would have
    made it, and a later [Get] finds the second value, or nothing once
    the second entry has expired. *)
Theorem Set_overwrites (key val : string) (ttl : Duration) (w : World) :
  mu w = unlocked →
  ∃ w' e,
    run (Set_ key val ttl) w = Ok tt w' ∧
    mu w' = unlocked ∧
    data w' = <[key := e]> (data w) ∧
    value e = val ∧
    (ttl = 0 → expiresAt e = 0 ∧ ∀ now, expired_at now e = false) ∧
    (0 < ttl → expiresAt e = now_of w + ttl) ∧
    ∀ (val2 : string) (ttl2 : Duration),
    ∃ w2 e2,
      run (Set_ key val2 ttl2) w' = Ok tt w2 ∧
      mu w2 = unlocked ∧
      data w2 = <[key := e2]> (data w) ∧
      e2 = Entry val2 (if bool_decide (0 < ttl2) then now_of w' + ttl2 else 0) ∧
      ∀ n : nat,
        let w3 := advance n w2 in
        run (Get key) w3 =
        if expired_at (now_of w3) e2
        then Ok (EmptyString, false)
               (with_data (delete key (data w3)) (tick w3))
        else Ok (val2, true) (if IsZero (expiresAt e2) then w3 else tick w3).
Proof.
  intros Hmu.
  assert (Hsnd : ∀ (w1 : World) (m : gmap string entry) (val2 : string)
                   (ttl2 : Duration) (e1 : entry),
             mu w1 = unlocked → data w1 = <[key := e1]> m →
             ∃ w2 e2,
               run (Set_ key val2 ttl2) w1 = Ok tt w2 ∧
               mu w2 = unlocked ∧
               data w2 = <[key := e2]> m ∧
               e2 = Entry val2
                      (if bool_decide (0 < ttl2) then now_of w1 + ttl2 else 0) ∧
               ∀ n : nat,
                 let w3 := advance n w2 in
                 run (Get key) w3 =
                 if expired_at (now_of w3) e2
                 then Ok (EmptyString, false)
                        (with_data (delete key (data w3)) (tick w3))
                 else Ok (val2, true)
                        (if IsZero (expiresAt e2) then w3 else tick w3)).
  { intros w1 m val2 ttl2 e1 Hmu1 Hd1.
    rewrite run_Set by done. unfold Add.
    destruct (bool_decide (0 < ttl2)); eexists _, _;
      (split; [done|]); (split; [done|]);
      cbn [data with_data tick]; rewrite Hd1, insert_insert_eq;
      (split; [done|]); (split; [done|]);
      intros n; rewrite run_Get by done;
      cbn [data with_data tick advance]; rewrite lookup_insert_eq; done. }
  rewrite run_Set by done. unfold Add.
  destruct (bool_decide (0 < ttl)) eqn:Httl.
  - apply bool_decide_eq_true in Httl.
    eexists _, _. split; [done|].
    split; [done|]. split; [done|]. split; [done|].
    split; [lia|]. split; [done|].
    intros val2 ttl2. by eapply Hsnd.
  - apply bool_decide_eq_false in Httl.
    eexists _, _. split; [done|].
    split; [done|]. split; [done|]. split; [done|].
    split; [done|]. split; [lia|].
    intros val2 ttl2. by eapply Hsnd.
Qed.

(** C6. [Delete key] returns [true] exactly when the key is in the map
    with an entry that is not expired; it returns [false] when the key
    is not in the map or its entry has expired; in every case the key is
    removed from the map, and a [Get] of the key finds nothing
    afterwards. *)
Theorem Delete_true_iff_present_unexpired (key : string) (w : World) :
  mu w = unlocked →
  ∃ deleted w',
    run (Delete key) w = Ok deleted w' ∧
    mu w' = unlocked ∧
    (deleted = true ↔
       ∃ e, data w !! key = Some e ∧ expired_at (now_of w) e = false) ∧
    (data w !! key = None → deleted = false) ∧
    (∀ e, data w !! key = Some e → expired_at (now_of w) e = true →
          deleted = false) ∧
    data w' = delete key (data w) ∧
    data w' !! key = None ∧
    ∀ n : nat,
      run (Get key) (advance n w') = Ok (EmptyString, false) (advance n w').
Proof.
  intros Hmu. rewrite run_Delete by done.
  destruct (data w !! key) as [e|] eqn:Hk.
  - eexists _, _. split; [done|].
    assert (Hmu' : mu (with_data (delete key (data w))
                         (if IsZero (expiresAt e) then w else tick w))
                   = unlocked)
      by by destruct w, (IsZero (expiresAt e)).
    assert (Hd' : data (with_data (delete key (data w))
                          (if IsZero (expiresAt e) then w else tick w))
                  = delete key (data w)) by done.
    split; [done|].
    split; [|split; [|split; [|split; [|split]]]]; try done.
    + rewrite negb_true_iff. split; [eauto|].
      by intros (e' & [= <-] & ?).
    + intros e' [= <-] ->. done.
    + rewrite Hd'. apply lookup_delete_eq.
    + intros n. apply run_Get_advance_absent; [done|].
      rewrite Hd'. apply lookup_delete_eq.
  - eexists _, _. split; [done|]. split; [done|].
    split; [|split; [|split; [|split; [|split]]]]; try done.
    + split; [done|]. by intros (e & ? & ?).
    + apply lookup_delete_eq.
    + intros n. apply run_Get_advance_absent; [done|]. apply lookup_delete_eq.
Qed.

(** C9. [Set key val ttl] with [ttl < 0] does what [Set key val 0] does:
    the entry it stores has no expiration instant and is expired at no
    instant, and [Get key] returns [(val, true)] however far the clock
    has advanced since. *)
Theorem Set_negative_ttl_never_expires (key val : string) (ttl : Duration)
  (w : World) :
  mu w = unlocked →
  ttl < 0 →
  run (Set_ key val ttl) w = run (Set_ key val 0) w ∧
  ∃ w',
    run (Set_ key val ttl) w = Ok tt w' ∧
    data w' !! key = Some (Entry val 0) ∧
    (∀ now, expired_at now (Entry val 0) = false) ∧
    ∀ n : nat, run (Get key) (advance n w') = Ok (val, true) (advance n w').
Proof.
  intros Hmu Httl. rewrite !run_Set by done.
  rewrite (bool_decide_eq_false_2 (0 < ttl)) by lia.
  rewrite (bool_decide_eq_false_2 (0 < 0)) by lia.
  split; [done|]. eexists. split; [done|].
  assert (Hk : data (with_data (<[key:=Entry val 0]> (data w)) w) !! key
               = Some (Entry val 0)) by apply lookup_insert_eq.
  split; [done|]. split; [done|].
  intros n. by apply run_Get_advance_never.
Qed.

(** C8. One [sweep] removes from the map every entry that is expired at
    the instant the sweep read from the clock, and leaves every other
    entry, with its key, value and expiration instant, as it was. *)
Theorem sweep_removes_exactly_expired (w : World) :
  mu w = unlocked →
  ∃ w',
    run sweep w = Ok tt w' ∧
    mu w' = unlocked ∧
    stopGC w' = stopGC w ∧
    (∀ k e, data w !! k = Some e → expired_at (now_of w) e = true →
            data w' !! k = None) ∧
    (∀ k e, data w !! k = Some e → expired_at (now_of w) e = false →
            data w' !! k = Some e) ∧
    (∀ k, data w !! k = None → data w' !! k = None).
Proof.
  intros Hmu. rewrite run_sweep by done. eexists. split; [done|].
  split; [done|]. split; [done|]. cbn [data with_data].
  split; [|split]; intros k.
  - intros e Hk Hexp. rewrite sweep_data_lookup by done.
    by rewrite Hk, Hexp.
  - intros e Hk Hexp. rewrite sweep_data_lookup by done.
    by rewrite Hk, Hexp.
  - intros Hk. rewrite sweep_data_lookup by done. by rewrite Hk.
Qed.

(** C10. [List] does not change the map: an entry it finds expired, at
    the reading of the clock it takes when it visits the entry, is left
    out of the keys it returns and stays in the map; the map, the lock
    and the stop channel after the call are those before it.  On a
    clock that never runs backwards an entry that was expired when the
    call began is found expired.  [Set] removes no key either (it puts
    an entry at its key), so that a key leaves the map only in [Get],
    [Delete] or [sweep]. *)
Theorem List_leaves_map_unchanged (w : World) :
  mu w = unlocked →
  (∃ keys w',
     run List w = Ok keys w' ∧
     data w' = data w ∧ mu w' = mu w ∧ stopGC w' = stopGC w ∧
     (∀ k e, data w !! k = Some e → expired_at (now_of w) e = true →
             data w' !! k = Some e) ∧
     (∀ j k e,
        range_order (ranges w) (data w) !! j = Some (k, e) →
        expired_at
          (clock (ticks w
                  + List_ticks (take j (range_order (ranges w) (data w))))%nat)
          e = true →
        (k ∉ keys) ∧ data w' !! k = Some e) ∧
     (∀ k, k ∈ keys → is_Some (data w !! k)) ∧
     ((∀ i j, (i ≤ j)%nat → clock i ≤ clock j) →
      ∀ k e, data w !! k = Some e → expired_at (now_of w) e = true →
             k ∉ keys)) ∧
  (∀ key val ttl, ∃ w',
     run (Set_ key val ttl) w = Ok tt w' ∧
     ∀ k, is_Some (data w !! k) → is_Some (data w' !! k)).
Proof.
  intros Hmu. split.
  - destruct (List_keys_at w Hmu)
      as (keys & w' & Hrun & Hdata & Hmu' & Hc & _ & _ & Hat & _ & Hidx).
    exists keys, w'. split; [done|]. split; [done|].
    split; [by rewrite Hmu|]. split; [done|].
    split; [by intros k e Hk _; rewrite Hdata|].
    split; [|split].
    + intros j k e Hj Hexp. destruct (Hat j k e Hj) as (Hk & _ & Hiff).
      split; [|by rewrite Hdata].
      intros Hin. apply Hiff in Hin. congruence.
    + intros k Hin. destruct (Hidx k Hin) as (j & e & Hj).
      destruct (Hat j k e Hj) as (Hk & _). by exists e.
    + intros Hmono k e Hk Hexp Hin.
      destruct (Hidx k Hin) as (j & e' & Hj).
      destruct (Hat j k e' Hj) as (Hk' & _ & Hiff).
      assert (e' = e) by congruence. subst e'.
      apply Hiff in Hin. apply expired_at_iff in Hexp as [Hnz Hlt].
      apply expired_at_false_iff in Hin as [?|Hle]; [done|].
      set (i := List_ticks (take j (range_order (ranges w) (data w)))) in *.
      specialize (Hmono (ticks w) (ticks w + i)%nat).
      change (expiresAt e < clock (ticks w)) in Hlt. lia.
  - intros key val ttl. rewrite run_Set by done.
    destruct (bool_decide (0 < ttl)); eexists; (split; [done|]);
      intros k Hk; cbn [data with_data tick];
      rewrite lookup_insert_is_Some; destruct (decide (key = k)); eauto.
Qed.

Lemma List_keys (w : World) :
  mu w = unlocked →
  ∃ keys w',
    run List w = Ok keys w' ∧
    data w' = data w ∧ mu w' = unlocked ∧ stopGC w' = stopGC w ∧
    NoDup keys ∧
    (∀ k, k ∈ keys →
          ∃ e i, data w !! k = Some e ∧ (i < size (data w))%nat ∧
                 expired_at (clock (ticks w + i)%nat) e = false) ∧
    (∀ k e, data w !! k = Some e →
            (∀ i, (i < size (data w))%nat →
                  expired_at (clock (ticks w + i)%nat) e = false) →
            k ∈ keys).
Proof.
  intros Hmu. rewrite run_List by done. cbv zeta.
  pose proof (range_order_perm (ranges w) (data w)) as Hperm.
  assert (Hlen : length (range_order (ranges w) (data w)) = size (data w)).
  { rewrite Hperm. apply length_map_to_list. }
  eexists _, _. split; [done|]. split; [done|].
  split; [by rewrite <- Hmu|]. split; [done|].
  split; [|split].
  - eapply sublist_NoDup; [|apply List_sel_sublist].
    rewrite Hperm. apply NoDup_fst_map_to_list.
  - intros k Hin. apply List_sel_sound in Hin as (e & i & Hin & Hi & Hexp).
    exists e, i. rewrite Hperm, elem_of_map_to_list in Hin.
    split; [done|]. split; [lia|done].
  - intros k e Hk Hall. apply List_sel_complete with e.
    + rewrite Hperm. by apply elem_of_map_to_list.
    + intros i Hi. apply Hall. lia.
Qed.

(** C7, as the code has it. [List] returns, without repetition, keys of
    the map.  Each entry is tested at the reading of the clock taken
    when the loop visits it, and the clock is read once for each entry
    that has an expiration instant and not at all for the others: the
    entry visited in place [j] is returned exactly when it is unexpired
    at the reading that follows those taken for the entries before it.
    Hence a key is returned only if its entry has no expiration instant
    or is unexpired at one of the readings of the call, and it is
    returned if its entry is unexpired at all of them.  When the clock
    does not advance during the call the keys are exactly those whose
    entry is in the map and unexpired at that instant.  On a clock that
    never runs backwards, a key whose entry was expired when the call
    began is not returned, although it is still in the map. *)
Theorem List_keys_unexpired_when_visited (w : World) :
  mu w = unlocked →
  ∃ keys w',
    run List w = Ok keys w' ∧
    NoDup keys ∧
    ticks w' = (ticks w + deadlines (data w))%nat ∧
    (∀ j k e,
       range_order (ranges w) (data w) !! j = Some (k, e) →
       (expiresAt e = 0 ∨
        (List_ticks (take j (range_order (ranges w) (data w)))
         < deadlines (data w))%nat) ∧
       (k ∈ keys ↔
        expired_at
          (clock (ticks w
                  + List_ticks (take j (range_order (ranges w) (data w))))%nat)
          e = false)) ∧
    (∀ k, k ∈ keys →
          ∃ e, data w !! k = Some e ∧
               (expiresAt e = 0 ∨
                ∃ i, (i < deadlines (data w))%nat ∧
                     expired_at (clock (ticks w + i)%nat) e = false)) ∧
    (∀ k e, data w !! k = Some e →
            (∀ i, (i < deadlines (data w))%nat →
                  expired_at (clock (ticks w + i)%nat) e = false) →
            k ∈ keys) ∧
    ((∀ i, (i < deadlines (data w))%nat →
           clock (ticks w + i)%nat = now_of w) →
     ∀ k, k ∈ keys ↔
          ∃ e, data w !! k = Some e ∧ expired_at (now_of w) e = false) ∧
    ((∀ i j, (i ≤ j)%nat → clock i ≤ clock j) →
     ∀ k e, data w !! k = Some e → expired_at (now_of w) e = true →
            (k ∉ keys) ∧ data w' !! k = Some e).
Proof.
  intros Hmu.
  destruct (List_keys_at w Hmu)
    as (keys & w' & Hrun & Hdata & _ & _ & Hnodup & Hticks & Hat & Hpos
        & Hidx).
  assert (Hsound : ∀ k, k ∈ keys →
            ∃ e, data w !! k = Some e ∧
                 (expiresAt e = 0 ∨
                  ∃ i, (i < deadlines (data w))%nat ∧
                       expired_at (clock (ticks w + i)%nat) e = false)).
  { intros k Hin. destruct (Hidx k Hin) as (j & e & Hj).
    destruct (Hat j k e Hj) as (Hk & Hbound & Hiff).
    exists e. split; [done|]. destruct Hbound as [?|Hlt]; [by left|].
    right. eexists. split; [exact Hlt|]. by apply Hiff. }
  assert (Hcompl : ∀ k e, data w !! k = Some e →
            (∀ i, (i < deadlines (data w))%nat →
                  expired_at (clock (ticks w + i)%nat) e = false) →
            k ∈ keys).
  { intros k e Hk Hall. destruct (Hpos k e Hk) as [j Hj].
    destruct (Hat j k e Hj) as (_ & Hbound & Hiff). apply Hiff.
    destruct Hbound as [Hz|Hlt]; [|by apply Hall].
    apply expired_at_false_iff. by left. }
  exists keys, w'. split; [done|]. split; [done|]. split; [done|].
  split; [|split; [done|]; split; [done|]; split].
  - intros j k e Hj. destruct (Hat j k e Hj) as (_ & Hbound & Hiff). done.
  - intros Hconst k. split.
    + intros Hin. apply Hsound in Hin as (e & Hk & [Hz|(i & Hi & Hexp)]).
      * exists e. split; [done|]. apply expired_at_false_iff. by left.
      * exists e. split; [done|]. by rewrite <- (Hconst i Hi).
    + intros (e & Hk & Hexp). apply Hcompl with e; [done|].
      intros i Hi. by rewrite (Hconst i Hi).
  - intros Hmono k e Hk Hexp. split; [|by rewrite Hdata].
    intros Hin. apply Hsound in Hin as (e' & Hk' & Hcase).
    assert (e' = e) by congruence. subst e'.
    apply expired_at_iff in Hexp as [Hnz Hlt].
    destruct Hcase as [?|(i & Hi & Hexp')]; [done|].
    apply expired_at_false_iff in Hexp' as [?|Hle]; [done|].
    specialize (Hmono (ticks w) (ticks w + i)%nat).
    change (expiresAt e < clock (ticks w)) in Hlt. lia.
Qed.

(** ** The stop channel *)

Lemma run_call_other (o : op) (w : World) :
  mu w = unlocked →
  is_stop o = false →
  ∃ w', run (call o) w = Ok tt w' ∧ mu w' = unlocked ∧ stopGC w' = stopGC w.
Proof.
  intros Hmu Hns. destruct o as [key|key val ttl|key| | |]; cbn [call].
  - rewrite run_bind, run_Get by done.
    destruct (data w !! key) as [e|]; [|by eexists].
    destruct (expired_at (now_of w) e); [by eexists|].
    destruct (IsZero (expiresAt e)); by eexists.
  - rewrite run_Set by done. destruct (bool_decide (0 < ttl)); by eexists.
  - rewrite run_bind, run_Delete by done.
    destruct (data w !! key) as [e|]; [|by eexists].
    destruct (IsZero (expiresAt e)); by eexists.
  - rewrite run_bind, run_List by done. cbv zeta. eexists.
    split; [done|]. split; [by rewrite <- Hmu|done].
  - rewrite run_sweep by done. by eexists.
  - done.
Qed.

Lemma run_calls (os : list op) (w : World) :
  mu w = unlocked →
  let closed := match stopGC w with ChanOpen => O | ChanClosed => 1%nat end in
  ((stops os + closed ≤ 1)%nat → ∃ w', run (calls os) w = Ok tt w') ∧
  ((2 ≤ stops os + closed)%nat →
   run (calls os) w = Panic "close of closed channel").
Proof.
  revert w. induction os as [|o os' IH]; intros w Hmu closed; subst closed.
  - split; [by eexists|]. simpl. destruct (stopGC w); lia.
  - cbn [calls stops]. rewrite run_bind.
    destruct (is_stop o) eqn:Hstop.
    + destruct o; try done. cbn [call]. rewrite run_Stop.
      destruct (stopGC w) eqn:Hc.
      * specialize (IH (with_stopGC ChanClosed w) Hmu). simpl in IH.
        destruct IH as [IH1 IH2].
        split; intros H; [apply IH1 | apply IH2]; lia.
      * split; [lia|done].
    + destruct (run_call_other o w Hmu Hstop) as (w' & -> & Hmu' & Hc').
      specialize (IH w' Hmu'). simpl in IH. rewrite Hc' in IH.
      destruct IH as [IH1 IH2].
      split; intros H; [apply IH1 | apply IH2]; simpl in H; lia.
Qed.

(** C1, as the code has it.  [Stop] never waits.  In a sequence of calls
    on a store fresh from [New], the first [Stop] closes the stop channel
    and returns; the second [Stop] panics ("close of closed channel"):
    a sequence with at most one [Stop] runs to its end, one with two or
    more panics. *)
Theorem Stop_second_call_panics (os : list op) (w : World) :
  mu w = unlocked →
  stopGC w = ChanOpen →
  run Stop w = Ok tt (with_stopGC ChanClosed w) ∧
  run Stop (with_stopGC ChanClosed w) = Panic "close of closed channel" ∧
  (∀ w0, run Stop w0 ≠ Blocked) ∧
  ((stops os ≤ 1)%nat → ∃ w', run (calls os) w = Ok tt w') ∧
  ((2 ≤ stops os)%nat → run (calls os) w = Panic "close of closed channel").
Proof.
  intros Hmu Hopen. rewrite !run_Stop, Hopen.
  split; [done|]. split; [done|].
  split; [intros w0; rewrite run_Stop; by destruct (stopGC w0)|].
  destruct (run_calls os w Hmu) as [H1 H2]. rewrite Hopen in H1, H2.
  split; intros H; [apply H1 | apply H2]; lia.
Qed.

(** ** One expiration test *)

(** C3, as the code has it.  An entry is expired at an instant if and
    only if its expiration instant is set (not zero) and lies strictly
    before that instant: an entry is not yet expired at its expiration
    instant.  [Get], [Delete] and [List] apply this test at the reading
    of the clock they take when they examine the entry ([List] at the
    reading that follows those it took for the entries it visited
    before), [sweep] applies it at the one reading it takes before its
    loop. *)
Theorem expired_iff_set_and_strictly_past (now : Time) (e : entry) :
  (expired_at now e = true ↔ expiresAt e ≠ 0 ∧ expiresAt e < now) ∧
  (∀ w, now_of w = now →
        ∃ w', run (expired e) w = Ok (expired_at now e) w') ∧
  (∀ key w, mu w = unlocked → now_of w = now → data w !! key = Some e →
            ∃ v w', run (Get key) w = Ok (v, negb (expired_at now e)) w') ∧
  (∀ key w, mu w = unlocked → now_of w = now → data w !! key = Some e →
            ∃ w', run (Delete key) w = Ok (negb (expired_at now e)) w') ∧
  (∀ key w, mu w = unlocked → now_of w = now → data w !! key = Some e →
            ∃ w', run sweep w = Ok tt w' ∧
                  data w' !! key = if expired_at now e then None else Some e) ∧
  (∀ key w, mu w = unlocked → now_of w = now → data w !! key = Some e →
            (∀ i, (i < size (data w))%nat → clock (ticks w + i)%nat = now) →
            ∃ keys w', run List w = Ok keys w' ∧
                       (key ∈ keys ↔ expired_at now e = false)) ∧
  (∀ key w j,
     mu w = unlocked →
     range_order (ranges w) (data w) !! j = Some (key, e) →
     clock (ticks w
            + List_ticks (take j (range_order (ranges w) (data w))))%nat
     = now →
     ∃ keys w', run List w = Ok keys w' ∧
                ticks w' = (ticks w + deadlines (data w))%nat ∧
                (key ∈ keys ↔ expired_at now e = false)).
Proof.
  split; [apply expired_at_iff|].
  split; [intros w <-; rewrite run_expired; by eexists|].
  split; [|split; [|split; [|split]]].
  - intros key w Hmu <- Hk. rewrite run_Get, Hk by done.
    destruct (expired_at (now_of w) e); by eexists _, _.
  - intros key w Hmu <- Hk. rewrite run_Delete, Hk by done. by eexists.
  - intros key w Hmu <- Hk. rewrite run_sweep by done. eexists.
    split; [done|]. cbn [data with_data].
    rewrite sweep_data_lookup by done. by rewrite Hk.
  - intros key w Hmu <- Hk Hconst.
    destruct (List_keys w Hmu)
      as (keys & w' & Hrun & _ & _ & _ & _ & Hsound & Hcompl).
    exists keys, w'. split; [done|]. split.
    + intros Hin. apply Hsound in Hin as (e' & i & Hk' & Hi & Hexp).
      assert (e' = e) by congruence. subst e'.
      by rewrite <- (Hconst i Hi).
    + intros Hexp. apply Hcompl with e; [done|].
      intros i Hi. by rewrite (Hconst i Hi).
  - intros key w j Hmu Hj <-.
    destruct (List_keys_at w Hmu)
      as (keys & w' & Hrun & _ & _ & _ & _ & Hticks & Hat & _).
    exists keys, w'. split; [done|]. split; [done|].
    by destruct (Hat j key e Hj) as (_ & _ & Hiff).
Qed.

(** ** The window in the lazy expiry of [Get] *)

(** C2. [Get] on an expired key releases the read lock before it takes
    the write lock, and what it has left to do then is to take the write
    lock and delete the key, with no second look at the entry.  Hence the
    interleaving: [Get] finds the key expired and releases the read lock;
    a concurrent [Set] stores a fresh value that never expires and
    returns; [Get] takes the write lock and deletes the fresh value. *)
Theorem Get_lazy_expiry_deletes_fresh_value (key val : string) (e : entry)
  (w : World) :
  mu w = unlocked →
  data w !! key = Some e →
  expired_at (now_of w) e = true →
  ∃ (before after : list tid) (c1 c2 : Conf (string * bool) unit),
    sched before (MkConf (Get key) (Set_ key val 0) w) = Some c1 ∧
    first c1 =
      (mu_Lock;; map_delete key;; mu_Unlock;; mret (EmptyString, false)) ∧
    second c1 = Ret tt ∧
    mu (shared c1) = unlocked ∧
    data (shared c1) !! key = Some (Entry val 0) ∧
    (∀ now, expired_at now (Entry val 0) = false) ∧
    sched after c1 = Some c2 ∧
    first c2 = Ret (EmptyString, false) ∧
    second c2 = Ret tt ∧
    mu (shared c2) = unlocked ∧
    data (shared c2) !! key = None.
Proof.
  destruct w as [m l c t r]. cbn [mu data]. intros -> Hk Hexp.
  change (expired_at (clock t) e = true) in Hexp. unfold expired_at in Hexp.
  apply andb_true_iff in Hexp as [Hnz Haft].
  exists [First; First; First; First; Second; Second; Second],
         [First; First; First].
  eexists _, _. split.
  { unfold Get, expired. simpl. rewrite Hk. simpl. rewrite Hnz. simpl.
    rewrite Haft. simpl. reflexivity. }
  split; [reflexivity|]. split; [reflexivity|]. split; [reflexivity|].
  split; [apply lookup_insert_eq|]. split; [done|].
  split; [reflexivity|]. split; [reflexivity|]. split; [reflexivity|].
  split; [reflexivity|]. apply lookup_delete_eq.
Qed.

(** * Further properties of the package *)

(** ** Keys are independent *)

(** X1. [Get], [Set] and [Delete] on one key leave what the map holds at
    every other key as it is. *)
Theorem other_keys_untouched (key k val : string) (ttl : Duration)
  (w : World) :
  mu w = unlocked →
  k ≠ key →
  (∃ r w', run (Get key) w = Ok r w' ∧ data w' !! k = data w !! k) ∧
  (∃ w', run (Set_ key val ttl) w = Ok tt w' ∧ data w' !! k = data w !! k) ∧
  (∃ b w', run (Delete key) w = Ok b w' ∧ data w' !! k = data w !! k).
Proof.
  intros Hmu Hne. split; [|split].
  - rewrite run_Get by done.
    destruct (data w !! key) as [e|]; [|by eexists _, _].
    destruct (expired_at (now_of w) e).
    + eexists _, _. split; [done|]. cbn [data with_data].
      by apply lookup_delete_ne.
    + eexists _, _. split; [done|]. by destruct (IsZero (expiresAt e)).
  - rewrite run_Set by done.
    destruct (bool_decide (0 < ttl)); eexists; (split; [done|]);
      cbn [data with_data]; by apply lookup_insert_ne.
  - rewrite run_Delete by done.
    destruct (data w !! key) as [e|]; eexists _, _; (split; [done|]);
      cbn [data with_data]; by apply lookup_delete_ne.
Qed.

(** ** A value with a time to live *)

(** X2. After [Set key val ttl] with [ttl > 0], made at an instant
    [now ≥ 0], a [Get key] that reads the clock at or before
    [now + ttl] returns [(val, true)] and leaves the map as it is; one
    that reads it after [now + ttl] returns [("", false)] and removes
    the key. *)
Theorem Set_then_Get_until_deadline (key val : string) (ttl : Duration)
  (n : nat) (w : World) :
  mu w = unlocked →
  0 < ttl →
  0 ≤ now_of w →
  ∃ w1,
    run (Set_ key val ttl) w = Ok tt w1 ∧
    (now_of (advance n w1) ≤ now_of w + ttl →
     ∃ w3, run (Get key) (advance n w1) = Ok (val, true) w3 ∧
           data w3 = data w1) ∧
    (now_of w + ttl < now_of (advance n w1) →
     ∃ w3, run (Get key) (advance n w1) = Ok (EmptyString, false) w3 ∧
           data w3 !! key = None).
Proof.
  intros Hmu Httl Hnow. rewrite run_Set by done.
  rewrite bool_decide_eq_true_2 by done. eexists. split; [done|].
  set (w1 := with_data _ (tick w)).
  assert (Hk : data (advance n w1) !! key
               = Some (Entry val (Add (now_of w) ttl)))
    by apply lookup_insert_eq.
  unfold Add in *.
  split; intros Hle; rewrite run_Get, Hk by done.
  - rewrite (proj2 (expired_at_false_iff _ _)) by (right; done).
    cbn [value expiresAt]. eexists. split; [done|].
    by destruct (IsZero (now_of w + ttl)).
  - rewrite (proj2 (expired_at_iff _ _)) by (cbn [expiresAt]; lia).
    eexists. split; [done|]. cbn [data with_data]. apply lookup_delete_eq.
Qed.

(** ** The lock discipline *)


(** X4. Writes exclude.  While any goroutine holds the lock, for reading
    or for writing, [Set], [Delete] and [sweep] wait; [Get] and [List]
    wait while one holds it for writing. *)
Theorem writes_wait_for_the_lock (key val : string) (ttl : Duration)
  (w : World) :
  ((0 < readers (mu w))%nat ∨ writer (mu w) = true →
   run (Set_ key val ttl) w = Blocked ∧
   run (Delete key) w = Blocked ∧
   run sweep w = Blocked) ∧
  (writer (mu w) = true →
   run (Get key) w = Blocked ∧ run List w = Blocked).
Proof.
  destruct w as [m [n wr] c t r]. cbn [mu writer readers].
  split.
  - intros Hheld.
    assert (Hlock : lock (MkRWMutex n wr) = None).
    { unfold lock. simpl. destruct wr; [done|].
      destruct n; [|done]. destruct Hheld; [lia|done]. }
    split; [|split].
    + unfold Set_. destruct (bool_decide (0 < ttl)); cbn -[lock];
        by rewrite Hlock.
    + unfold Delete. cbn -[lock]. by rewrite Hlock.
    + unfold sweep. cbn -[lock]. by rewrite Hlock.
  - intros ->. split; [unfold Get | unfold List]; done.
Qed.

(** ** After [Stop] *)

(** X5. No operation of the store looks at the stop channel: [Get],
    [Set], [Delete], [List] and [sweep] do on a stopped store what they
    do on a running one. *)
Theorem store_usable_after_Stop (key val : string) (ttl : Duration)
  (w : World) :
  mu w = unlocked →
  let stopped := with_stopGC ChanClosed in
  run (Get key) (stopped w) = on_world stopped (run (Get key) w) ∧
  run (Set_ key val ttl) (stopped w)
  = on_world stopped (run (Set_ key val ttl) w) ∧
  run (Delete key) (stopped w) = on_world stopped (run (Delete key) w) ∧
  run List (stopped w) = on_world stopped (run List w) ∧
  run sweep (stopped w) = on_world stopped (run sweep w).
Proof.
  intros Hmu stopped.
  assert (Hmu' : mu (stopped w) = unlocked) by done.
  rewrite !run_Get, !run_Set, !run_Delete, !run_List, !run_sweep by done.
  subst stopped. destruct w as [m l c t r]. cbn.
  split; [|split; [|split; [|split]]]; try done.
  - destruct (m !! key) as [e|]; [|done].
    destruct (expired_at _ e); [done|].
    by destruct (IsZero (expiresAt e)).
  - by destruct (bool_decide (0 < ttl)).
  - destruct (m !! key) as [e|]; [|done].
    by destruct (IsZero (expiresAt e)).
Qed.

(** ** [List] and [sweep] *)

(** X6. [List] and [sweep] agree: when the clock does not advance during
    the calls, the keys [List] returns on a store are the keys a [sweep]
    of that store leaves in the map. *)
Theorem List_returns_what_sweep_keeps (w : World) :
  mu w = unlocked →
  (∀ i, (i < size (data w))%nat → clock (ticks w + i)%nat = now_of w) →
  ∃ keys wl ws,
    run List w = Ok keys wl ∧
    run sweep w = Ok tt ws ∧
    ∀ k, k ∈ keys ↔ is_Some (data ws !! k).
Proof.
  intros Hmu Hconst.
  destruct (List_keys w Hmu)
    as (keys & wl & Hrun & _ & _ & _ & _ & Hsound & Hcompl).
  rewrite run_sweep by done. exists keys, wl. eexists.
  split; [done|]. split; [done|]. intros k. cbn [data with_data].
  rewrite sweep_data_lookup by done. split.
  - intros Hin. apply Hsound in Hin as (e & i & Hk & Hi & Hexp).
    rewrite (Hconst i Hi) in Hexp. by rewrite Hk, Hexp.
  - destruct (data w !! k) as [e|] eqn:Hk; [|by intros [? ?]].
    destruct (expired_at (now_of w) e) eqn:Hexp; [by intros [? ?]|].
    intros _. apply Hcompl with e; [done|].
    intros i Hi. by rewrite (Hconst i Hi).
Qed.

(** ** The background goroutine *)

Lemma only_deletes_bind {A B : Type} (p : Prog A) (f : A → Prog B) :
  only_deletes p → (∀ a, only_deletes (f a)) → only_deletes (p ≫= f).
Proof.
  intros Hp Hf. unfold mbind, Prog_bind.
  induction Hp; simpl; try (constructor; auto); auto.
Qed.

Lemma only_deletes_sweep : only_deletes sweep.
Proof.
  unfold sweep. repeat constructor. intros kes.
  apply only_deletes_bind; [|intros []; repeat constructor].
  induction kes as [|[k e] rest IH]; [constructor|].
  cbn [sweep_loop]. apply only_deletes_bind; [|by intros []].
  destruct (expired_at t e); repeat constructor.
Qed.

Lemma exec1_only_deletes {A : Type} (p p' : Prog A) (w w' : World) :
  only_deletes p →
  exec1 p w = Ok p' w' →
  only_deletes p' ∧ data w' ⊆ data w ∧ stopGC w' = stopGC w.
Proof.
  intros Hp. destruct Hp; simpl; intros Hex.
  - inversion Hex; subst. split; [constructor|done].
  - destruct (rlock (mu w)); inversion Hex; by subst.
  - destruct (runlock (mu w)); inversion Hex; by subst.
  - destruct (lock (mu w)); inversion Hex; by subst.
  - destruct (unlock (mu w)); inversion Hex; by subst.
  - inversion Hex; by subst.
  - inversion Hex; by subst.
  - inversion Hex; subst. split; [done|]. split; [|done].
    apply delete_subseteq.
  - inversion Hex; by subst.
Qed.

Lemma gc_step_inv (ev : gc_event) (g g' : gc_state) (w w' : World) :
  gc_inv g →
  gc_step ev g w = Some (g', w') →
  gc_inv g' ∧ data w' ⊆ data w ∧ stopGC w' = stopGC w ∧
  (g' = GcReturned → stopGC w = ChanClosed).
Proof.
  intros Hinv. destruct g as [|p|], ev; simpl; try done.
  - intros [= <- <-]. split; [apply only_deletes_sweep|done].
  - destruct (stopGC w) eqn:Hc; [done|]. by intros [= <- <-].
  - destruct (exec1 p w) as [p1 w1| |] eqn:Hex; [|done..].
    intros [= <- <-].
    destruct (exec1_only_deletes p p1 w w1 Hinv Hex) as (Hp1 & Hsub & Hc).
    split; [by destruct (returned p1)|]. split; [done|]. split; [done|].
    by destruct (returned p1).
Qed.

Lemma gc_run_inv (evs : list gc_event) (g g' : gc_state) (w w' : World) :
  gc_inv g →
  gc_run evs g w = Some (g', w') →
  data w' ⊆ data w ∧ stopGC w' = stopGC w ∧
  (g' = GcReturned → g = GcReturned ∨ stopGC w = ChanClosed).
Proof.
  revert g w. induction evs as [|ev evs IH]; intros g w Hinv; cbn [gc_run].
  - intros [= <- <-]. split; [done|]. split; [done|]. by left.
  - destruct (gc_step ev g w) as [[g1 w1]|] eqn:Hstep; [|done].
    intros Hrun.
    destruct (gc_step_inv ev g g1 w w1 Hinv Hstep) as (Hinv1 & Hsub & Hc & Hret).
    destruct (IH g1 w1 Hinv1 Hrun) as (Hsub' & Hc' & Hret').
    split; [by etrans|]. split; [congruence|].
    intros Hg'. right. destruct (Hret' Hg') as [Hg1|Hclosed]; [auto|congruence].
Qed.

Lemma gc_run_sweep_steps (p : Prog unit) (w w' : World) :
  run p w = Ok tt w' →
  returned p = false →
  ∃ n, gc_run (replicate n SweepStep) (GcSweep p) w = Some (GcSelect, w').
Proof.
  assert (Hcont : ∀ (k : Prog unit) (w1 : World),
             run k w1 = Ok tt w' →
             (returned k = false →
              ∃ n, gc_run (replicate n SweepStep) (GcSweep k) w1
                   = Some (GcSelect, w')) →
             ∃ n, gc_run (replicate n SweepStep)
                    (if returned k then GcSelect else GcSweep k) w1
                  = Some (GcSelect, w')).
  { intros k w1 Hrun Hrec. destruct (returned k) eqn:Hret; [|by apply Hrec].
    destruct k; try done. simpl in Hrun. inversion Hrun; subst.
    by exists O. }
  revert w.
  induction p as [a|k IH|k IH|k IH|k IH|k IH|key k IH|key e k IH|key k IH
                 |k IH|k IH]; intros w Hrun Hnr; [done|..]; simpl in Hrun.
  - destruct (rlock (mu w)) as [l|] eqn:Hl; [|done].
    destruct (Hcont k _ Hrun (IH _ Hrun)) as [n Hn].
    exists (S n). cbn [replicate gc_run]. simpl. by rewrite Hl.
  - destruct (runlock (mu w)) as [l|] eqn:Hl; [|done].
    destruct (Hcont k _ Hrun (IH _ Hrun)) as [n Hn].
    exists (S n). cbn [replicate gc_run]. simpl. by rewrite Hl.
  - destruct (lock (mu w)) as [l|] eqn:Hl; [|done].
    destruct (Hcont k _ Hrun (IH _ Hrun)) as [n Hn].
    exists (S n). cbn [replicate gc_run]. simpl. by rewrite Hl.
  - destruct (unlock (mu w)) as [l|] eqn:Hl; [|done].
    destruct (Hcont k _ Hrun (IH _ Hrun)) as [n Hn].
    exists (S n). cbn [replicate gc_run]. simpl. by rewrite Hl.
  - destruct (Hcont _ _ Hrun (IH _ _ Hrun)) as [n Hn]. by exists (S n).
  - destruct (Hcont _ _ Hrun (IH _ _ Hrun)) as [n Hn]. by exists (S n).
  - destruct (Hcont _ _ Hrun (IH _ Hrun)) as [n Hn]. by exists (S n).
  - destruct (Hcont _ _ Hrun (IH _ Hrun)) as [n Hn]. by exists (S n).
  - destruct (Hcont _ _ Hrun (IH _ _ Hrun)) as [n Hn]. by exists (S n).
  - destruct (stopGC w) eqn:Hc; [|done].
    destruct (Hcont k _ Hrun (IH _ Hrun)) as [n Hn].
    exists (S n). cbn [replicate gc_run]. simpl. by rewrite Hc.
Qed.

(** X7. Whatever the background goroutine does on its own, it only
    removes entries: every entry in the map afterwards was in the map
    before, unchanged, and the stop channel is as it was. *)
Theorem gcLoop_only_deletes (evs : list gc_event) (g' : gc_state)
  (w w' : World) :
  gc_run evs GcSelect w = Some (g', w') →
  (∀ k e, data w' !! k = Some e → data w !! k = Some e) ∧
  stopGC w' = stopGC w.
Proof.
  intros Hrun.
  destruct (gc_run_inv evs GcSelect g' w w' I Hrun) as (Hsub & Hc & _).
  split; [|done]. intros k e Hk. by eapply lookup_weaken.
Qed.

(** X8. The background goroutine returns only once the stop channel is
    closed: on a store on which [Stop] has not been called, no sequence
    of its events ends in its return.  Once the channel is closed it can
    return at its next [select], and after its return it does nothing
    more. *)
Theorem gcLoop_returns_only_after_Stop (evs : list gc_event) (w : World) :
  (stopGC w = ChanOpen →
   ∀ w', gc_run evs GcSelect w ≠ Some (GcReturned, w')) ∧
  (stopGC w = ChanClosed →
   gc_step StopReceived GcSelect w = Some (GcReturned, w)) ∧
  (∀ x, gc_run evs GcReturned w = Some x → evs = []).
Proof.
  split; [|split].
  - intros Hopen w' Hrun.
    destruct (gc_run_inv evs GcSelect GcReturned w w' I Hrun) as (_ & _ & Hret).
    destruct (Hret eq_refl) as [?|?]; congruence.
  - intros Hclosed. simpl. by rewrite Hclosed.
  - intros x. by destruct evs as [|[] evs].
Qed.

(** X9. A tick of the ticker makes the background goroutine run one
    whole [sweep]: on a store whose lock is free there is a number of
    steps after which it is back in its [select], in the state a
    [sweep] run to its end leaves, with the lock free. *)
Theorem gcLoop_tick_runs_sweep (w : World) :
  mu w = unlocked →
  ∃ (n : nat) (w' : World),
    run sweep w = Ok tt w' ∧
    mu w' = unlocked ∧
    gc_run (TickerFires :: replicate n SweepStep) GcSelect w
    = Some (GcSelect, w').
Proof.
  intros Hmu. pose proof (run_sweep w Hmu) as Hrun.
  destruct (gc_run_sweep_steps sweep w _ Hrun eq_refl) as [n Hn].
  eexists n, _. split; [done|]. split; [done|]. done.
Qed.

(** ** Calls that cannot be torn apart *)

Lemma Set_zero (key val : string) :
  Set_ key val 0 = MuLock (MapStore key (Entry val 0) (MuUnlock (Ret tt))).
Proof. reflexivity. Qed.

Lemma IsZero_zero : IsZero 0 = true.
Proof. reflexivity. Qed.

(** Following a schedule step by step, whoever it picks. *)
Ltac crunch H :=
  repeat (progress (cbn in H;
                    rewrite ?lookup_insert_eq, ?IsZero_zero in H;
                    repeat match goal with
                           | E : _ !! _ = _ |- _ => rewrite E in H
                           | E : IsZero _ = _ |- _ => rewrite E in H
                           | E : After _ _ = _ |- _ => rewrite E in H
                           end)).

Ltac explore H :=
  crunch H; try discriminate;
  lazymatch type of H with
  | sched ?ts _ = Some _ => destruct ts as [|[|] ts]; explore H
  | _ => idtac
  end.

Ltac finished H :=
  injection H as <-; cbn; intros; try discriminate;
  rewrite ?insert_delete_eq, ?delete_insert_eq; auto.

(** X10. On a key that is absent or not expired, [Get] cannot be torn
    apart by a concurrent [Set]: whatever the schedule, once both have
    returned, [Get] has returned either what it would have returned
    before the [Set] or the value [Set] stored, the map holds the new
    value, and the lock is free. *)
Theorem Get_Set_atomic_when_unexpired (key val : string) (w : World)
  (ts : list tid) (c' : Conf (string * bool) unit) :
  mu w = unlocked →
  (∀ e, data w !! key = Some e → expired_at (now_of w) e = false) →
  sched ts (MkConf (Get key) (Set_ key val 0) w) = Some c' →
  returned (first c') = true →
  returned (second c') = true →
  (first c' = Ret (match data w !! key with
                   | Some e => (value e, true)
                   | None => (EmptyString, false)
                   end) ∨
   first c' = Ret (val, true)) ∧
  data (shared c') = <[key := Entry val 0]> (data w) ∧
  mu (shared c') = unlocked.
Proof.
  destruct w as [m l c t r]. cbn [mu data]. intros -> Hlive H.
  rewrite Set_zero in H. unfold Get, expired in H.
  destruct (m !! key) as [e|] eqn:Hk.
  - specialize (Hlive e eq_refl). cbv [now_of expired_at] in Hlive.
    cbn [ticks] in Hlive.
    destruct (IsZero (expiresAt e)) eqn:Hz; simpl in Hlive;
      explore H; finished H.
  - explore H; finished H.
Qed.

(** X11. [Delete] holds the write lock from its first step to its last,
    so a concurrent [Set] on the key comes wholly before or wholly
    after it: whatever the schedule, once both have returned, either
    [Delete] has returned what it would have returned alone and the map
    holds the new value, or [Delete] has returned [true] and the key is
    gone. *)
Theorem Delete_Set_atomic (key val : string) (w : World)
  (ts : list tid) (c' : Conf bool unit) :
  mu w = unlocked →
  sched ts (MkConf (Delete key) (Set_ key val 0) w) = Some c' →
  returned (first c') = true →
  returned (second c') = true →
  mu (shared c') = unlocked ∧
  ((first c' = Ret (match data w !! key with
                    | Some e => negb (expired_at (now_of w) e)
                    | None => false
                    end) ∧
    data (shared c') = <[key := Entry val 0]> (data w)) ∨
   (first c' = Ret true ∧ data (shared c') = delete key (data w))).
Proof.
  destruct w as [m l c t r]. cbn [mu data]. intros -> H.
  rewrite Set_zero in H. unfold Delete, expired in H.
  cbv [now_of expired_at]. cbn [ticks].
  destruct (m !! key) as [e|] eqn:Hk.
  - destruct (IsZero (expiresAt e)) eqn:Hz.
    + explore H; finished H.
    + destruct (After (clock t) (expiresAt e)) eqn:Ha;
        explore H; finished H.
  - explore H; finished H.
Qed.

(** ** The front ends *)

Lemma ttl_of_seconds_exact (secs : Z) :
  0 < secs ≤ 9223372036 → ttl_of_seconds secs = secs * 1000000000.
Proof.
  intros Hs. unfold ttl_of_seconds, wrap64, time_Second.
  rewrite bool_decide_eq_true_2 by lia.
  rewrite Z.mod_small by lia. lia.
Qed.

Lemma ttl_of_seconds_nonpos (secs : Z) :
  secs ≤ 0 → ttl_of_seconds secs = 0.
Proof.
  intros Hs. unfold ttl_of_seconds. by rewrite bool_decide_eq_false_2 by lia.
Qed.

Lemma ttl_of_seconds_overflow (secs : Z) :
  9223372036 < secs → ttl_of_seconds secs < secs * 1000000000.
Proof.
  intros Hs. unfold ttl_of_seconds, wrap64, time_Second.
  rewrite bool_decide_eq_true_2 by lia.
  pose proof (Z.mod_pos_bound (secs * 1000000000 + 2 ^ 63) (2 ^ 64)) as Hb.
  lia.
Qed.

Lemma run_handleSet (key : string) (req : setRequest) (w : World) :
  mu w = unlocked →
  run (handleSet key (Some req)) w =
  match run (Set_ key (Value req) (ttl_of_seconds (TTLSeconds req))) w with
  | Ok _ w' => Ok (Response StatusNoContent None BodyEmpty) w'
  | Panic msg => Panic msg
  | Blocked => Blocked
  end.
Proof.
  intros Hmu. unfold handleSet. cbv zeta. rewrite run_bind.
  destruct (run (Set_ key (Value req) (ttl_of_seconds (TTLSeconds req))) w);
    done.
Qed.

Lemma run_handleGet (key : string) (w : World) :
  mu w = unlocked →
  run (handleGet key) w =
  match data w !! key with
  | None => Ok (http_Error (error_json "not found") StatusNotFound) w
  | Some e =>
      if expired_at (now_of w) e
      then Ok (http_Error (error_json "not found") StatusNotFound)
             (with_data (delete key (data w)) (tick w))
      else Ok (Response StatusOK (Some "application/json"%string)
                 (BodyValue (value e)))
             (if IsZero (expiresAt e) then w else tick w)
  end.
Proof.
  intros Hmu. unfold handleGet. rewrite run_bind, run_Get by done.
  destruct (data w !! key) as [e|]; [|done].
  by destruct (expired_at (now_of w) e).
Qed.

(** X12. [handleSet] answers a body it cannot decode with status 400 and
    does not touch the store.  A decoded request is answered with status
    204 and puts an entry with the request's value at the key: one that
    never expires when [ttl_seconds] is zero or negative, one that
    expires [ttl_seconds] seconds after the call when [ttl_seconds] is
    between 1 and 9223372036. *)
Theorem handleSet_stores_value_and_ttl (key : string)
  (decoded : option setRequest) (w : World) :
  mu w = unlocked →
  match decoded with
  | None =>
      run (handleSet key None) w =
      Ok (http_Error (error_json "invalid JSON") StatusBadRequest) w
  | Some req =>
      ∃ w' e,
        run (handleSet key (Some req)) w =
        Ok (Response StatusNoContent None BodyEmpty) w' ∧
        mu w' = unlocked ∧
        data w' = <[key := e]> (data w) ∧
        value e = Value req ∧
        (TTLSeconds req ≤ 0 →
         expiresAt e = 0 ∧ ∀ now, expired_at now e = false) ∧
        (0 < TTLSeconds req ≤ 9223372036 →
         expiresAt e = now_of w + TTLSeconds req * 1000000000)
  end.
Proof.
  intros Hmu. destruct decoded as [req|]; [|done].
  rewrite run_handleSet, run_Set by done.
  destruct (bool_decide (0 < ttl_of_seconds (TTLSeconds req))) eqn:Hpos.
  - apply bool_decide_eq_true in Hpos.
    eexists _, _. split; [done|]. split; [done|]. split; [done|].
    split; [done|]. cbn [expiresAt]. unfold Add. split.
    + intros Hs. rewrite ttl_of_seconds_nonpos in Hpos by done. lia.
    + intros Hs. by rewrite ttl_of_seconds_exact.
  - apply bool_decide_eq_false in Hpos.
    eexists _, _. split; [done|]. split; [done|]. split; [done|].
    split; [done|]. cbn [expiresAt]. split; [done|].
    intros Hs. rewrite ttl_of_seconds_exact in Hpos by done. lia.
Qed.

(** X13. The product of [ttl_seconds] and [time.Second] wraps around
    above 9223372036 seconds: the entry [handleSet] stores then expires
    before the instant asked for or not at all, and it never expires
    when the wrapped product is zero or negative. *)
Theorem handleSet_ttl_overflow (key : string) (req : setRequest)
  (w : World) :
  mu w = unlocked →
  9223372036 < TTLSeconds req →
  ∃ w' e,
    run (handleSet key (Some req)) w =
    Ok (Response StatusNoContent None BodyEmpty) w' ∧
    data w' = <[key := e]> (data w) ∧
    (expiresAt e = 0 ∨
     expiresAt e < now_of w + TTLSeconds req * 1000000000) ∧
    (wrap64 (TTLSeconds req * time_Second) ≤ 0 →
     expiresAt e = 0 ∧ ∀ now, expired_at now e = false).
Proof.
  intros Hmu Hbig. rewrite run_handleSet, run_Set by done.
  pose proof (ttl_of_seconds_overflow _ Hbig) as Hlt.
  assert (Hwrap : ttl_of_seconds (TTLSeconds req)
                  = wrap64 (TTLSeconds req * time_Second)).
  { unfold ttl_of_seconds. by rewrite bool_decide_eq_true_2 by lia. }
  destruct (bool_decide (0 < ttl_of_seconds (TTLSeconds req))) eqn:Hpos.
  - apply bool_decide_eq_true in Hpos.
    eexists _, _. split; [done|]. split; [done|].
    cbn [expiresAt]. unfold Add. split; [right; lia|].
    intros Hle. lia.
  - eexists _, _. split; [done|]. split; [done|].
    cbn [expiresAt]. split; [by left|done].
Qed.

(** X14. [handleGet] answers with status 200 and the stored value exactly
    when the key is in the map with an entry that is not expired, and
    with status 404 otherwise; after a 404 the key is not in the map. *)
Theorem handleGet_status (key : string) (w : World) :
  mu w = unlocked →
  ∃ resp w',
    run (handleGet key) w = Ok resp w' ∧
    mu w' = unlocked ∧
    (status resp = 200%nat ∨ status resp = 404%nat) ∧
    (status resp = 200%nat ↔
     ∃ e, data w !! key = Some e ∧ expired_at (now_of w) e = false) ∧
    (∀ e, data w !! key = Some e → expired_at (now_of w) e = false →
          resp = Response 200 (Some "application/json"%string)
                   (BodyValue (value e)) ∧
          data w' = data w) ∧
    (status resp = 404%nat →
     resp = http_Error (error_json "not found") 404 ∧
     data w' !! key = None).
Proof.
  intros Hmu. rewrite run_handleGet by done.
  destruct (data w !! key) as [e|] eqn:Hk.
  - destruct (expired_at (now_of w) e) eqn:Hexp.
    + eexists _, _. split; [done|]. split; [done|].
      split; [by right|]. split; [|split].
      * split; [done|]. intros (e' & [= <-] & ?). congruence.
      * intros e' [= <-] ?. congruence.
      * intros _. split; [done|]. apply lookup_delete_eq.
    + eexists _, _. split; [done|].
      split; [by destruct (IsZero (expiresAt e))|].
      split; [by left|]. split; [|split].
      * split; [eauto|done].
      * intros e' [= <-] _. by destruct (IsZero (expiresAt e)).
      * done.
  - eexists _, _. split; [done|]. split; [done|].
    split; [by right|]. split; [|split]; try done.
    split; [done|]. by intros (e & ? & ?).
Qed.

Lemma run_handleDelete (key : string) (w : World) :
  mu w = unlocked →
  run (handleDelete key) w =
  match run (Delete key) w with
  | Ok deleted w' =>
      Ok (Response StatusOK (Some "application/json"%string)
            (BodyDeleted deleted)) w'
  | Panic msg => Panic msg
  | Blocked => Blocked
  end.
Proof.
  intros Hmu. unfold handleDelete. rewrite run_bind.
  by destruct (run (Delete key) w).
Qed.

(** X15. A value put through [handleSet] comes back through
    [handleGet].  With [ttl_seconds] zero or negative it comes back at
    any later time; with [ttl_seconds] between 1 and 9223372036, on a
    request made at an instant [now ≥ 0], it comes back while the clock
    reads at most [now + ttl_seconds * 10^9], and the answer is 404 once
    the clock has passed that instant. *)
Theorem handleSet_then_handleGet (key : string) (req : setRequest)
  (n : nat) (w : World) :
  mu w = unlocked →
  ∃ w1,
    run (handleSet key (Some req)) w =
    Ok (Response StatusNoContent None BodyEmpty) w1 ∧
    let found := Response 200 (Some "application/json"%string)
                   (BodyValue (Value req)) in
    let missing := http_Error (error_json "not found") 404 in
    let deadline := now_of w + TTLSeconds req * 1000000000 in
    (TTLSeconds req ≤ 0 →
     ∃ w2, run (handleGet key) (advance n w1) = Ok found w2) ∧
    (0 < TTLSeconds req ≤ 9223372036 → 0 ≤ now_of w →
     (now_of (advance n w1) ≤ deadline →
      ∃ w2, run (handleGet key) (advance n w1) = Ok found w2) ∧
     (deadline < now_of (advance n w1) →
      ∃ w2, run (handleGet key) (advance n w1) = Ok missing w2)).
Proof.
  intros Hmu. rewrite run_handleSet, run_Set by done.
  destruct (bool_decide (0 < ttl_of_seconds (TTLSeconds req))) eqn:Hpos.
  - apply bool_decide_eq_true in Hpos.
    eexists. split; [done|]. cbv zeta.
    set (w1 := with_data _ (tick w)).
    assert (Hk : data (advance n w1) !! key
                 = Some (Entry (Value req)
                           (Add (now_of w) (ttl_of_seconds (TTLSeconds req)))))
      by apply lookup_insert_eq.
    split.
    + intros Hs. rewrite ttl_of_seconds_nonpos in Hpos by done. lia.
    + intros Hs Hnow. rewrite ttl_of_seconds_exact in Hk, Hpos by done.
      unfold Add in Hk.
      split; intros Hle; rewrite run_handleGet, Hk by done.
      * rewrite (proj2 (expired_at_false_iff _ _)) by (right; done).
        by eexists.
      * rewrite (proj2 (expired_at_iff _ _)) by (cbn [expiresAt]; lia).
        by eexists.
  - apply bool_decide_eq_false in Hpos.
    eexists. split; [done|]. cbv zeta.
    set (w1 := with_data _ w).
    assert (Hk : data (advance n w1) !! key = Some (Entry (Value req) 0))
      by apply lookup_insert_eq.
    split.
    + intros _. rewrite run_handleGet, Hk by done. by eexists.
    + intros Hs. rewrite ttl_of_seconds_exact in Hpos by done. lia.
Qed.

(** X16. [handleDelete] always answers with status 200; the [deleted]
    field of its answer is [true] exactly when the key was in the map
    with an entry that was not expired.  Whatever it answered, the key
    is gone: a later [handleGet] answers 404 and a second [handleDelete]
    answers [deleted = false]. *)
Theorem handleDelete_then_handleGet (key : string) (n : nat) (w : World) :
  mu w = unlocked →
  ∃ deleted w1,
    run (handleDelete key) w =
    Ok (Response 200 (Some "application/json"%string) (BodyDeleted deleted))
       w1 ∧
    (deleted = true ↔
     ∃ e, data w !! key = Some e ∧ expired_at (now_of w) e = false) ∧
    run (handleGet key) (advance n w1) =
    Ok (http_Error (error_json "not found") 404) (advance n w1) ∧
    run (handleDelete key) (advance n w1) =
    Ok (Response 200 (Some "application/json"%string) (BodyDeleted false))
       (advance n w1).
Proof.
  intros Hmu. rewrite run_handleDelete, run_Delete by done.
  assert (Hgone : ∀ w1 : World,
             mu w1 = unlocked → data w1 !! key = None →
             run (handleGet key) (advance n w1) =
             Ok (http_Error (error_json "not found") 404) (advance n w1) ∧
             run (handleDelete key) (advance n w1) =
             Ok (Response 200 (Some "application/json"%string)
                   (BodyDeleted false)) (advance n w1)).
  { intros w1 Hmu1 Hk1.
    rewrite run_handleGet, run_handleDelete, run_Delete by done.
    cbn [data advance]. rewrite Hk1. split; [done|].
    unfold with_data, advance. cbn.
    rewrite delete_id by done. done. }
  destruct (data w !! key) as [e|] eqn:Hk.
  - eexists _, _. split; [done|]. split.
    + rewrite negb_true_iff. split; [eauto|]. by intros (e' & [= <-] & ?).
    + apply Hgone; [by destruct (IsZero (expiresAt e))|].
      cbn [data with_data]. apply lookup_delete_eq.
  - eexists _, _. split; [done|]. split.
    + split; [done|]. by intros (e & ? & ?).
    + apply Hgone; [done|]. cbn [data with_data]. apply lookup_delete_eq.
Qed.

(** X17. The two front ends do the same to the store.  [Set] over gRPC
    leaves the store as [handleSet] does for the same key, value and
    [ttl_seconds]; [Get] over gRPC leaves it as [handleGet] does, answers
    [found = true] with the value exactly when [handleGet] answers 200
    with that value, and answers an empty value with [found = false];
    [Delete] over gRPC leaves it as [handleDelete] does and answers the
    same [deleted]. *)
Theorem GRPC_agrees_with_HTTP (key val : string) (secs : Z) (w : World) :
  mu w = unlocked →
  (∃ w', run (GRPC_Set key val secs) w = Ok tt w' ∧
         run (handleSet key (Some (SetRequest val secs))) w =
         Ok (Response StatusNoContent None BodyEmpty) w') ∧
  (∃ r resp w',
     run (GRPC_Get key) w = Ok r w' ∧
     run (handleGet key) w = Ok resp w' ∧
     (pb.Found r = true ↔ status resp = 200%nat) ∧
     (pb.Found r = true → payload resp = BodyValue (pb.Value r)) ∧
     (pb.Found r = false → pb.Value r = EmptyString)) ∧
  (∃ r w',
     run (GRPC_Delete key) w = Ok r w' ∧
     run (handleDelete key) w =
     Ok (Response 200 (Some "application/json"%string)
           (BodyDeleted (pb.Deleted r))) w').
Proof.
  intros Hmu. split; [|split].
  - rewrite run_handleSet by done. unfold GRPC_Set. cbv zeta.
    cbn [Value TTLSeconds]. rewrite run_Set by done.
    destruct (bool_decide (0 < ttl_of_seconds secs)); by eexists.
  - rewrite run_handleGet by done. unfold GRPC_Get.
    rewrite run_bind, run_Get by done.
    destruct (data w !! key) as [e|].
    + destruct (expired_at (now_of w) e); eexists _, _, _;
        (split; [done|]); (split; [done|]); done.
    + eexists _, _, _. split; [done|]. split; [done|]. done.
  - rewrite run_handleDelete by done. unfold GRPC_Delete.
    rewrite run_bind, run_Delete by done.
    destruct (data w !! key) as [e|]; by eexists _, _.
Qed.

(** ** A store without deadlines *)

Lemma List_ticks_never (kes : list (string * entry)) :
  (∀ k e, (k, e) ∈ kes → expiresAt e = 0) → List_ticks kes = O.
Proof.
  induction kes as [|[k e] rest IH]; intros Hall; [done|].
  cbn [List_ticks]. rewrite (Hall k e) by (by left).
  rewrite IsZero_zero. apply IH. intros k' e' Hin. apply (Hall k' e').
  by right.
Qed.

(** X18. On a store in which no entry has an expiration instant, [List]
    returns every key of the map exactly once, and does not read the
    clock. *)
Theorem List_all_keys_without_ttl (w : World) :
  mu w = unlocked →
  (∀ k e, data w !! k = Some e → expiresAt e = 0) →
  ∃ keys w',
    run List w = Ok keys w' ∧
    keys ≡ₚ (map_to_list (data w)).*1 ∧
    ticks w' = ticks w.
Proof.
  intros Hmu Hnever.
  destruct (List_keys w Hmu)
    as (keys & w' & Hrun & _ & _ & _ & Hnodup & Hsound & Hcompl).
  exists keys, w'. split; [done|]. split.
  - apply NoDup_Permutation; [done | apply NoDup_fst_map_to_list |].
    intros k. rewrite list_elem_of_fmap. split.
    + intros Hin. apply Hsound in Hin as (e & _ & Hk & _).
      exists (k, e). split; [done|]. by apply elem_of_map_to_list.
    + intros ([k' e] & -> & Hin). apply elem_of_map_to_list in Hin.
      apply Hcompl with e; [done|]. intros i _.
      apply expired_at_false_iff. left. by apply (Hnever k').
  - rewrite run_List in Hrun by done. cbv zeta in Hrun.
    injection Hrun as _ <-. cbn [ticks advance next_range].
    rewrite List_ticks_never; [done|].
    intros k e Hin. apply (Hnever k).
    rewrite range_order_perm in Hin. by apply elem_of_map_to_list.
Qed.

End Properties.

(** * The scenarios *)

Lemma map_order_perm (n : nat) (m : gmap string entry) :
  map_order n m ≡ₚ map_to_list m.
Proof. reflexivity. Qed.

(** The first [Get] of [TestTTLExpiry]. *)
Lemma Get_present_unexpired_witness :
  mu store_temp = unlocked ∧
  ∃ v found w',
    run (clock_from 100) map_order (Get "temp") store_temp = Ok (v, found) w' ∧
    v = "value"%string ∧ found = true ∧ data w' = data store_temp.
Proof.
  split; [reflexivity|].
  destruct (Get_present_unexpired (clock_from 100) map_order "temp" store_temp
              eq_refl)
    as (v & found & w' & Hrun & _ & _ & Hlive & _).
  destruct (Hlive (Entry "value" 150) eq_refl eq_refl) as (Hv & Hf & Hd).
  exists v, found, w'. repeat split; assumption.
Defined.

(** [TestOverwrite]. *)
Lemma Set_overwrites_witness :
  mu (New 0 0) = unlocked ∧
  ∃ w' e,
    run (clock_from 100) map_order (Set_ "key" "v1" 0) (New 0 0) = Ok tt w' ∧
    value e = "v1"%string ∧
    ∃ w2,
      run (clock_from 100) map_order (Set_ "key" "v2" 0) w' = Ok tt w2 ∧
      data w2 = <["key" := Entry "v2" 0]> (data (New 0 0)).
Proof.
  split; [reflexivity|].
  destruct (Set_overwrites (clock_from 100) map_order "key" "v1" 0 (New 0 0)
              eq_refl)
    as (w' & e & Hrun & _ & _ & Hv & _ & _ & Hsnd).
  destruct (Hsnd "v2"%string 0) as (w2 & e2 & Hrun2 & _ & Hd2 & He2 & _).
  exists w', e. split; [assumption|]. split; [assumption|].
  exists w2. split; [assumption|]. rewrite Hd2, He2. reflexivity.
Defined.

(** [TestDelete], on a key with a deadline. *)
Lemma Delete_true_iff_present_unexpired_witness :
  mu store_temp = unlocked ∧
  ∃ deleted w',
    run (clock_from 100) map_order (Delete "temp") store_temp
    = Ok deleted w' ∧
    deleted = true ∧ data w' !! "temp" = None.
Proof.
  split; [reflexivity|].
  destruct (Delete_true_iff_present_unexpired (clock_from 100) map_order
              "temp" store_temp eq_refl)
    as (deleted & w' & Hrun & _ & Hiff & _ & _ & _ & Hgone & _).
  exists deleted, w'. split; [assumption|]. split; [|assumption].
  apply Hiff. exists (Entry "value" 150). split; reflexivity.
Defined.

Lemma Set_negative_ttl_never_expires_witness :
  mu (New 0 0) = unlocked ∧ -5 < 0 ∧
  run (clock_from 100) map_order (Set_ "k" "v" (-5)) (New 0 0) =
  run (clock_from 100) map_order (Set_ "k" "v" 0) (New 0 0).
Proof.
  split; [reflexivity|]. split; [reflexivity|].
  apply (Set_negative_ttl_never_expires (clock_from 100) map_order
           "k" "v" (-5) (New 0 0) eq_refl eq_refl).
Defined.

Lemma sweep_removes_exactly_expired_witness :
  (∀ n m, map_order n m ≡ₚ map_to_list m) ∧
  mu store_stale = unlocked ∧
  ∃ w', run (clock_from 100) map_order sweep store_stale = Ok tt w' ∧
        data w' !! "temp" = None.
Proof.
  split; [exact map_order_perm|]. split; [reflexivity|].
  destruct (sweep_removes_exactly_expired (clock_from 100) map_order
              map_order_perm store_stale eq_refl)
    as (w' & Hrun & _ & _ & Hexp & _).
  exists w'. split; [assumption|].
  apply (Hexp "temp"%string (Entry "old" 50)); reflexivity.
Defined.

Lemma List_leaves_map_unchanged_witness :
  (∀ n m, map_order n m ≡ₚ map_to_list m) ∧
  mu store_stale = unlocked ∧
  ∃ keys w',
    run (clock_from 100) map_order List store_stale = Ok keys w' ∧
    data w' = data store_stale ∧
    "temp"%string ∉ keys.
Proof.
  split; [exact map_order_perm|]. split; [reflexivity|].
  destruct (List_leaves_map_unchanged (clock_from 100) map_order
              map_order_perm store_stale eq_refl)
    as [(keys & w' & Hrun & Hd & _ & _ & _ & Hfound & _) _].
  exists keys, w'. split; [assumption|]. split; [assumption|].
  apply (Hfound O "temp"%string (Entry "old" 50)); reflexivity.
Defined.

(** [TestListExcludesExpired], for the key that has expired. *)
Lemma List_keys_unexpired_when_visited_witness :
  (∀ n m, map_order n m ≡ₚ map_to_list m) ∧
  mu store_stale = unlocked ∧
  ∃ keys w',
    run (clock_from 100) map_order List store_stale = Ok keys w' ∧
    ticks w' = 1%nat ∧
    "temp"%string ∉ keys.
Proof.
  split; [exact map_order_perm|]. split; [reflexivity|].
  destruct (List_keys_unexpired_when_visited (clock_from 100) map_order
              map_order_perm store_stale eq_refl)
    as (keys & w' & Hrun & _ & Hticks & _ & _ & _ & _ & Hmono).
  exists keys, w'. split; [assumption|]. split; [exact Hticks|].
  apply (Hmono (λ i j Hij, Zplus_le_compat_l _ _ 100 (inj_le i j Hij))
           "temp"%string (Entry "old" 50)); reflexivity.
Defined.

Lemma Stop_second_call_panics_witness :
  mu (New 0 0) = unlocked ∧ stopGC (New 0 0) = ChanOpen ∧
  run (clock_from 100) map_order (calls [OpSet "foo" "bar" 0; OpStop; OpStop])
    (New 0 0)
  = Panic "close of closed channel".
Proof.
  split; [reflexivity|]. split; [reflexivity|].
  apply (Stop_second_call_panics (clock_from 100) map_order
           [OpSet "foo" "bar" 0; OpStop; OpStop] (New 0 0) eq_refl eq_refl).
  apply le_n.
Defined.

Lemma expired_iff_set_and_strictly_past_witness :
  (∀ n m, map_order n m ≡ₚ map_to_list m) ∧
  (expired_at 101 (Entry "v" 100) = true ↔
   expiresAt (Entry "v" 100) ≠ 0 ∧ expiresAt (Entry "v" 100) < 101) ∧
  mu store_pair = unlocked ∧
  map_order (ranges store_pair) (data store_pair) !! 1%nat
  = Some ("b"%string, Entry "v" 100) ∧
  ∃ keys w',
    run (clock_from 100) map_order List store_pair = Ok keys w' ∧
    ticks w' = 2%nat ∧
    ("b"%string ∈ keys ↔ expired_at 101 (Entry "v" 100) = false).
Proof.
  split; [exact map_order_perm|].
  destruct (expired_iff_set_and_strictly_past (clock_from 100) map_order
              map_order_perm 101 (Entry "v" 100))
    as (Hiff & _ & _ & _ & _ & _ & Hlist).
  split; [exact Hiff|]. split; [reflexivity|]. split; [reflexivity|].
  apply (Hlist "b"%string store_pair 1%nat); reflexivity.
Defined.

Lemma Get_lazy_expiry_deletes_fresh_value_witness :
  mu store_stale = unlocked ∧
  data store_stale !! "temp" = Some (Entry "old" 50) ∧
  expired_at (now_of (clock_from 100) store_stale) (Entry "old" 50) = true ∧
  ∃ (before after : list tid) (c1 c2 : Conf (string * bool) unit),
    sched (clock_from 100) map_order before
      (MkConf (Get "temp") (Set_ "temp" "fresh" 0) store_stale) = Some c1 ∧
    data (shared c1) !! "temp" = Some (Entry "fresh" 0) ∧
    sched (clock_from 100) map_order after c1 = Some c2 ∧
    first c2 = Ret (EmptyString, false) ∧
    data (shared c2) !! "temp" = None.
Proof.
  split; [reflexivity|]. split; [reflexivity|]. split; [reflexivity|].
  destruct (Get_lazy_expiry_deletes_fresh_value (clock_from 100) map_order
              "temp" "fresh" (Entry "old" 50) store_stale
              eq_refl eq_refl eq_refl)
    as (before & after & c1 & c2 & H1 & _ & _ & _ & Hfresh & _ & H2 & Hf & _
        & _ & Hd).
  exists before, after, c1, c2. repeat split; assumption.
Defined.

(** * Scenarios for the further properties *)

Lemma other_keys_untouched_witness :
  mu store_temp = unlocked ∧ "other"%string ≠ "temp"%string ∧
  ∃ w', run (clock_from 100) map_order (Set_ "temp" "new" 0) store_temp
        = Ok tt w' ∧
        data w' !! "other" = data store_temp !! "other".
Proof.
  split; [reflexivity|]. split; [discriminate|].
  destruct (other_keys_untouched (clock_from 100) map_order
              "temp" "other" "new" 0 store_temp eq_refl)
    as (_ & Hset & _); [discriminate|].
  exact Hset.
Defined.

(** [TestTTLExpiry], with the clock read at once after the [Set]. *)
Lemma Set_then_Get_until_deadline_witness :
  mu (New 0 0) = unlocked ∧ 0 < 50 ∧
  0 ≤ now_of (clock_from 100) (New 0 0) ∧
  ∃ w1 w3,
    run (clock_from 100) map_order (Set_ "temp" "value" 50) (New 0 0)
    = Ok tt w1 ∧
    run (clock_from 100) map_order (Get "temp") (advance 0 w1)
    = Ok ("value"%string, true) w3.
Proof.
  split; [reflexivity|]. split; [reflexivity|]. split; [discriminate|].
  destruct (Set_then_Get_until_deadline (clock_from 100) map_order
              "temp" "value" 50 0 (New 0 0) eq_refl eq_refl)
    as (w1 & Hset & Hbefore & _); [discriminate|].
  assert (Hw1 : w1 = tick (with_data {["temp" := Entry "value" 150]}
                             (New 0 0))).
  { apply (f_equal (λ r, match r with Ok _ w => w | _ => w1 end)) in Hset.
    symmetry. exact Hset. }
  destruct Hbefore as (w3 & Hget & _).
  { rewrite Hw1. discriminate. }
  exists w1, w3. split; assumption.
Defined.


Lemma store_usable_after_Stop_witness :
  mu store_temp = unlocked ∧
  run (clock_from 100) map_order (Get "temp")
    (with_stopGC ChanClosed store_temp)
  = on_world (with_stopGC ChanClosed)
      (run (clock_from 100) map_order (Get "temp") store_temp).
Proof.
  split; [reflexivity|].
  apply (store_usable_after_Stop (clock_from 100) map_order
           "temp" "v" 0 store_temp eq_refl).
Defined.

Lemma List_returns_what_sweep_keeps_witness :
  (∀ n m, map_order n m ≡ₚ map_to_list m) ∧
  mu store_pair = unlocked ∧
  ∃ keys wl ws,
    run (clock_fixed 101) map_order List store_pair = Ok keys wl ∧
    run (clock_fixed 101) map_order sweep store_pair = Ok tt ws ∧
    ∀ k, k ∈ keys ↔ is_Some (data ws !! k).
Proof.
  split; [exact map_order_perm|]. split; [reflexivity|].
  apply (List_returns_what_sweep_keeps (clock_fixed 101) map_order
           map_order_perm store_pair eq_refl).
  intros i _. reflexivity.
Defined.

Lemma gcLoop_only_deletes_witness :
  ∃ g' w',
    gc_run (clock_from 100) map_order [TickerFires; SweepStep; SweepStep]
      GcSelect store_stale = Some (g', w') ∧
    stopGC w' = stopGC store_stale.
Proof.
  eexists _, _. split; [reflexivity|].
  eapply (gcLoop_only_deletes (clock_from 100) map_order
            [TickerFires; SweepStep; SweepStep]).
  reflexivity.
Defined.

Lemma gcLoop_tick_runs_sweep_witness :
  mu store_stale = unlocked ∧
  ∃ n w',
    run (clock_from 100) map_order sweep store_stale = Ok tt w' ∧
    gc_run (clock_from 100) map_order (TickerFires :: replicate n SweepStep)
      GcSelect store_stale = Some (GcSelect, w').
Proof.
  split; [reflexivity|].
  destruct (gcLoop_tick_runs_sweep (clock_from 100) map_order store_stale
              eq_refl)
    as (n & w' & Hrun & _ & Hgc).
  exists n, w'. split; assumption.
Defined.

Lemma Get_Set_atomic_when_unexpired_witness :
  mu store_temp = unlocked ∧
  ∃ c',
    sched (clock_from 100) map_order
      [Second; Second; Second; First; First; First]
      (MkConf (Get "temp") (Set_ "temp" "new" 0) store_temp) = Some c' ∧
    data (shared c') = <["temp" := Entry "new" 0]> (data store_temp) ∧
    mu (shared c') = unlocked.
Proof.
  split; [reflexivity|]. eexists. split; [reflexivity|].
  eapply (Get_Set_atomic_when_unexpired (clock_from 100) map_order
            "temp" "new" store_temp
            [Second; Second; Second; First; First; First]).
  - reflexivity.
  - intros e He. vm_compute in He. injection He as <-. reflexivity.
  - reflexivity.
  - reflexivity.
  - reflexivity.
Defined.

Lemma Delete_Set_atomic_witness :
  mu store_temp = unlocked ∧
  ∃ c',
    sched (clock_from 100) map_order
      [Second; Second; Second; First; First; First; First]
      (MkConf (Delete "temp") (Set_ "temp" "new" 0) store_temp) = Some c' ∧
    mu (shared c') = unlocked.
Proof.
  split; [reflexivity|]. eexists. split; [reflexivity|].
  eapply (Delete_Set_atomic (clock_from 100) map_order
            "temp" "new" store_temp
            [Second; Second; Second; First; First; First; First]);
    reflexivity.
Defined.

Lemma handleSet_stores_value_and_ttl_witness :
  mu (New 0 0) = unlocked ∧
  ∃ w' e,
    run (clock_from 100) map_order
      (handleSet "session" (Some (SetRequest "abc123" 30))) (New 0 0)
    = Ok (Response StatusNoContent None BodyEmpty) w' ∧
    data w' = <["session" := e]> (data (New 0 0)) ∧
    expiresAt e = 100 + 30 * 1000000000.
Proof.
  split; [reflexivity|].
  destruct (handleSet_stores_value_and_ttl (clock_from 100) map_order
              "session" (Some (SetRequest "abc123" 30)) (New 0 0) eq_refl)
    as (w' & e & Hrun & _ & Hd & _ & _ & Hexp).
  exists w', e. split; [assumption|]. split; [assumption|].
  apply Hexp. split; [reflexivity | discriminate].
Defined.

Lemma handleSet_ttl_overflow_witness :
  mu (New 0 0) = unlocked ∧ 9223372036 < 9223372037 ∧
  ∃ w' e,
    run (clock_from 100) map_order
      (handleSet "k" (Some (SetRequest "v" 9223372037))) (New 0 0)
    = Ok (Response StatusNoContent None BodyEmpty) w' ∧
    data w' = <["k" := e]> (data (New 0 0)) ∧
    expiresAt e = 0.
Proof.
  split; [reflexivity|]. split; [reflexivity|].
  destruct (handleSet_ttl_overflow (clock_from 100) map_order
              "k" (SetRequest "v" 9223372037) (New 0 0) eq_refl eq_refl)
    as (w' & e & Hrun & Hd & _ & Hnever).
  exists w', e. split; [assumption|]. split; [assumption|].
  apply Hnever. discriminate.
Defined.

Lemma handleGet_status_witness :
  mu store_stale = unlocked ∧
  ∃ resp w',
    run (clock_from 100) map_order (handleGet "temp") store_stale
    = Ok resp w' ∧
    (status resp = 200%nat ∨ status resp = 404%nat).
Proof.
  split; [reflexivity|].
  destruct (handleGet_status (clock_from 100) map_order "temp" store_stale
              eq_refl)
    as (resp & w' & Hrun & _ & Hst & _).
  exists resp, w'. split; assumption.
Defined.

Lemma handleSet_then_handleGet_witness :
  mu (New 0 0) = unlocked ∧
  ∃ w1 w2,
    run (clock_from 100) map_order
      (handleSet "greeting" (Some (SetRequest "hello world" 0))) (New 0 0)
    = Ok (Response StatusNoContent None BodyEmpty) w1 ∧
    run (clock_from 100) map_order (handleGet "greeting") (advance 7 w1)
    = Ok (Response 200 (Some "application/json"%string)
            (BodyValue "hello world")) w2.
Proof.
  split; [reflexivity|].
  destruct (handleSet_then_handleGet (clock_from 100) map_order
              "greeting" (SetRequest "hello world" 0) 7 (New 0 0) eq_refl)
    as (w1 & Hset & Hnever & _).
  destruct Hnever as (w2 & Hget); [discriminate|].
  exists w1, w2. split; assumption.
Defined.

Lemma handleDelete_then_handleGet_witness :
  mu store_temp = unlocked ∧
  ∃ deleted w1,
    run (clock_from 100) map_order (handleDelete "temp") store_temp
    = Ok (Response 200 (Some "application/json"%string)
            (BodyDeleted deleted)) w1 ∧
    run (clock_from 100) map_order (handleGet "temp") (advance 3 w1)
    = Ok (http_Error (error_json "not found") 404) (advance 3 w1).
Proof.
  split; [reflexivity|].
  destruct (handleDelete_then_handleGet (clock_from 100) map_order
              "temp" 3 store_temp eq_refl)
    as (deleted & w1 & Hdel & _ & Hget & _).
  exists deleted, w1. split; assumption.
Defined.

Lemma GRPC_agrees_with_HTTP_witness :
  mu store_temp = unlocked ∧
  ∃ r resp w',
    run (clock_from 100) map_order (GRPC_Get "temp") store_temp = Ok r w' ∧
    run (clock_from 100) map_order (handleGet "temp") store_temp
    = Ok resp w' ∧
    (pb.Found r = true ↔ status resp = 200%nat).
Proof.
  split; [reflexivity|].
  destruct (GRPC_agrees_with_HTTP (clock_from 100) map_order
              "temp" "v" 0 store_temp eq_refl)
    as (_ & (r & resp & w' & Hg & Hh & Hiff & _) & _).
  exists r, resp, w'. split; [assumption|]. split; assumption.
Defined.

(** [TestList]. *)
Lemma List_all_keys_without_ttl_witness :
  (∀ n m, map_order n m ≡ₚ map_to_list m) ∧
  mu store_abc = unlocked ∧
  ∃ keys w',
    run (clock_from 100) map_order List store_abc = Ok keys w' ∧
    length keys = 3%nat ∧
    ticks w' = ticks store_abc.
Proof.
  split; [exact map_order_perm|]. split; [reflexivity|].
  destruct (List_all_keys_without_ttl (clock_from 100) map_order
              map_order_perm store_abc eq_refl)
    as (keys & w' & Hrun & Hperm & Hticks).
  - intros k e Hk. unfold store_abc in Hk. cbn [data] in Hk.
    apply lookup_insert_Some in Hk as [[_ <-]|[_ Hk]]; [reflexivity|].
    apply lookup_insert_Some in Hk as [[_ <-]|[_ Hk]]; [reflexivity|].
    apply lookup_singleton_Some in Hk as [_ <-]. reflexivity.
  - exists keys, w'. split; [assumption|]. split; [|assumption].
    apply Permutation_length in Hperm. rewrite Hperm. reflexivity.
Defined.

(** * Where the code departs from the specification *)

(** C1 fails: the second of two [Stop] calls on a fresh store panics. *)
Lemma Stop_twice_counterexample :
  run (clock_from 100) map_order Stop (New 0 0)
  = Ok tt (with_stopGC ChanClosed (New 0 0)) ∧
  run (clock_from 100) map_order Stop (with_stopGC ChanClosed (New 0 0))
  = Panic "close of closed channel" ∧
  run (clock_from 100) map_order (calls [OpStop; OpStop]) (New 0 0)
  = Panic "close of closed channel".
Proof. repeat split; reflexivity. Qed.

(** C3 fails: at the instant [now = expiresAt] the entry is expired in
    the words of the specification, and neither [expired], [Get],
    [Delete], [List] nor [sweep] treats it as expired. *)
Lemma expired_at_deadline_counterexample :
  data store_due !! "temp" = Some (Entry "value" 100) ∧
  expired_spec (now_of (clock_from 100) store_due) (Entry "value" 100) ∧
  run (clock_from 100) map_order (expired (Entry "value" 100)) store_due
  = Ok false (tick store_due) ∧
  run (clock_from 100) map_order (Get "temp") store_due
  = Ok ("value"%string, true) (tick store_due) ∧
  run (clock_from 100) map_order (Delete "temp") store_due
  = Ok true (with_data ∅ (tick store_due)) ∧
  run (clock_from 100) map_order List store_due
  = Ok ["temp"%string] (next_range (tick store_due)) ∧
  run (clock_from 100) map_order sweep store_due
  = Ok tt (next_range (tick store_due)).
Proof.
  split; [reflexivity|]. split; [split; [discriminate | reflexivity]|].
  repeat split; reflexivity.
Qed.

(** C7 fails: the two entries of [store_pair] are equal, so any test of
    an entry at one instant keeps both keys or neither; [List], which
    reads the clock again for the second entry it visits, returns one
    of the two. *)
Lemma List_two_readings_counterexample :
  run (clock_from 100) map_order List store_pair
  = Ok ["a"%string] (advance 2 (next_range store_pair)) ∧
  ¬ ∃ P : entry → Prop,
      ∀ k : string,
        k ∈ ["a"%string] ↔ ∃ e, data store_pair !! k = Some e ∧ P e.
Proof.
  split; [reflexivity|]. intros [P H].
  assert (Ha : "a"%string ∈ ["a"%string]) by apply list_elem_of_singleton, eq_refl.
  apply H in Ha as (e & He & HP).
  assert (e = Entry "v" 100) as -> by (vm_compute in He; congruence).
  assert (Hb : "b"%string ∈ ["a"%string]).
  { apply H. exists (Entry "v" 100). split; [reflexivity | exact HP]. }
  apply list_elem_of_singleton in Hb. discriminate.
Qed.
